(** * MTP::ConcurrentSender: request lifecycle and cross-thread delivery

    A shallow embedding of [mtproto/concurrent_sender.cpp].  The sender
    keeps a map from request ids to caller handlers; requests are handed
    to the MTP instance through closures posted to the main thread
    ([crl::on_main]) and answers come back through closures handed to the
    caller-supplied runner.  Both kinds of closure are represented as
    data and kept in queues, so that every interleaving of "post" and
    "run" can be replayed. *)

From Stdlib Require Import ZArith String.
From Stdlib Require PrimFloat Uint63.
From stdpp Require Import gmap list sorting strings.

Local Open Scope Z_scope.

(** ** Basic types *)

(** [mtpRequestId], [mtpPrime], [ShiftedDcId] and [TimeMs] are integer
    typedefs; no arithmetic is done on them in this file. *)
Abbreviation mtpRequestId := Z (only parsing).
Abbreviation mtpPrime := Z (only parsing).
Abbreviation ShiftedDcId := Z (only parsing).
Abbreviation TimeMs := Z (only parsing).
Abbreviation bytes := (list Byte.byte) (only parsing).
Abbreviation mtpRequest := (list Z) (only parsing).

(** Modelled from the spec: the [FailSkipPolicy] enumeration is declared
    in a header outside this file; the spec lists the default value
    (spelled [Simple] in the code) and [HandleFlood]. *)
Inductive FailSkipPolicy := Simple | HandleFlood.

#[global] Instance FailSkipPolicy_eq_dec : EqDecision FailSkipPolicy.
Proof. solve_decision. Defined.

(** ** base::flat_map, as far as the sender uses it

    A [flat_map] holds at most one value per key and iterates in
    ascending key order. *)
Module flat_map.
Section ops.
Context {V : Type}.

(** [emplace] keeps the stored value when the key is already there. *)
Definition emplace (k : Z) (v : V) (m : gmap Z V) : gmap Z V :=
  match m !! k with
  | Some _ => m
  | None => <[k := v]> m
  end.

(** [take] removes the key and hands back what was stored, if anything. *)
Definition take (k : Z) (m : gmap Z V) : option V * gmap Z V :=
  (m !! k, delete k m).

Definition erase (k : Z) (m : gmap Z V) : gmap Z V := delete k m.

Definition keys (m : gmap Z V) : list Z :=
  merge_sort Z.le (fst <$> map_to_list m).
End ops.
End flat_map.

Section Sender.
(** The error type and everything computed from it live in
    [rpc_sender.h] / [mtp_instance.h]; they are taken as given. *)
Context {RPCError : Type}.
Context (isDefaultHandledError isFloodError : RPCError → bool).
Context (rpcClientError : string → string → RPCError).
Context (make_vector : list mtpPrime → bytes).

(** ** Handlers *)

(** Modelled from the spec: the [Handlers] struct is declared in the
    header; the code uses its members [done] and [fail].  A handler is
    described by what the sender can observe of a call: [done] either
    returns ([None]) or throws an [Exception] whose [what()] is the given
    text; [fail] returns a flag that the sender does not look at.
    Handlers that call back into the sender while they run are outside
    the model. *)
Record Handlers := {
  done : mtpRequestId → bytes → option string;
  fail : mtpRequestId → RPCError → bool;
}.

(** One entry per call of a caller handler, oldest first. *)
Inductive Invocation :=
| DoneInvoked (handlers : Handlers) (requestId : mtpRequestId) (result : bytes)
| FailInvoked (handlers : Handlers) (requestId : mtpRequestId) (error : RPCError).

Definition invocation_id (i : Invocation) : mtpRequestId :=
  match i with
  | DoneInvoked _ requestId _ => requestId
  | FailInvoked _ requestId _ => requestId
  end.

Definition is_done (i : Invocation) : bool :=
  match i with DoneInvoked _ _ _ => true | FailInvoked _ _ _ => false end.

(** ** Closures

    The lambdas handed to [_runner]: both capture the weak pointer to
    the sender, which is the one sender of [State] below. *)
Inductive Continuation :=
| DoneContinuation (requestId : mtpRequestId) (moved : bytes)
| FailContinuation (requestId : mtpRequestId) (error : RPCError).

(** The two response handlers given to [sendSerialized]. *)
Record RPCResponseHandler := {
  onDone : unit;                  (* RPCDoneHandler(_sender, _runner) *)
  onFail : FailSkipPolicy;        (* RPCFailHandler(_sender, _runner, policy) *)
}.

(** The lambdas handed to [with_instance]. *)
Inductive InstanceMethod :=
| SendSerialized (requestId : mtpRequestId) (request : mtpRequest)
    (callbacks : RPCResponseHandler) (dcId : ShiftedDcId)
    (msCanWait : TimeMs) (afterRequestId : mtpRequestId)
| CancelOne (requestId : mtpRequestId)
| CancelEach (list : list mtpRequestId).

(** What the [Instance] has been asked to do, oldest first. *)
Inductive InstanceCall :=
| sendSerialized (requestId : mtpRequestId) (request : mtpRequest)
    (callbacks : RPCResponseHandler) (dcId : ShiftedDcId)
    (msCanWait : TimeMs) (afterRequestId : mtpRequestId)
| cancel (requestId : mtpRequestId).

(** ** State *)
Record State := {
  (** Modelled from the spec: the process-wide request id counter. *)
  lastRequestId : mtpRequestId;
  (** whether the sender still exists, i.e. what [weak.get()] sees *)
  alive : bool;
  _requests : gmap Z Handlers;
  (** continuations given to [_runner] and not yet run *)
  runnerQueue : list Continuation;
  (** closures given to [crl::on_main] and not yet run *)
  mainQueue : list InstanceMethod;
  (** whether [MainInstance()] is non-null *)
  mainInstance : bool;
  instanceCalls : list InstanceCall;
  invoked : list Invocation;
}.

Definition set_lastRequestId (v : mtpRequestId) (st : State) : State :=
  {| lastRequestId := v; alive := alive st; _requests := _requests st;
     runnerQueue := runnerQueue st; mainQueue := mainQueue st;
     mainInstance := mainInstance st; instanceCalls := instanceCalls st;
     invoked := invoked st |}.

Definition set_alive (v : bool) (st : State) : State :=
  {| lastRequestId := lastRequestId st; alive := v; _requests := _requests st;
     runnerQueue := runnerQueue st; mainQueue := mainQueue st;
     mainInstance := mainInstance st; instanceCalls := instanceCalls st;
     invoked := invoked st |}.

Definition set_requests (v : gmap Z Handlers) (st : State) : State :=
  {| lastRequestId := lastRequestId st; alive := alive st; _requests := v;
     runnerQueue := runnerQueue st; mainQueue := mainQueue st;
     mainInstance := mainInstance st; instanceCalls := instanceCalls st;
     invoked := invoked st |}.

Definition set_runnerQueue (v : list Continuation) (st : State) : State :=
  {| lastRequestId := lastRequestId st; alive := alive st; _requests := _requests st;
     runnerQueue := v; mainQueue := mainQueue st;
     mainInstance := mainInstance st; instanceCalls := instanceCalls st;
     invoked := invoked st |}.

Definition set_mainQueue (v : list InstanceMethod) (st : State) : State :=
  {| lastRequestId := lastRequestId st; alive := alive st; _requests := _requests st;
     runnerQueue := runnerQueue st; mainQueue := v;
     mainInstance := mainInstance st; instanceCalls := instanceCalls st;
     invoked := invoked st |}.

Definition set_mainInstance (v : bool) (st : State) : State :=
  {| lastRequestId := lastRequestId st; alive := alive st; _requests := _requests st;
     runnerQueue := runnerQueue st; mainQueue := mainQueue st;
     mainInstance := v; instanceCalls := instanceCalls st;
     invoked := invoked st |}.

Definition set_instanceCalls (v : list InstanceCall) (st : State) : State :=
  {| lastRequestId := lastRequestId st; alive := alive st; _requests := _requests st;
     runnerQueue := runnerQueue st; mainQueue := mainQueue st;
     mainInstance := mainInstance st; instanceCalls := v;
     invoked := invoked st |}.

Definition set_invoked (v : list Invocation) (st : State) : State :=
  {| lastRequestId := lastRequestId st; alive := alive st; _requests := _requests st;
     runnerQueue := runnerQueue st; mainQueue := mainQueue st;
     mainInstance := mainInstance st; instanceCalls := instanceCalls st;
     invoked := v |}.

(** Calling a caller handler leaves a mark in [invoked]. *)
Definition invoke (i : Invocation) (st : State) : State :=
  set_invoked (invoked st ++ [i]) st.

(** [_runner(k)]: the caller's runner takes the continuation and runs
    it later in the caller's context. *)
Definition _runner (k : Continuation) (st : State) : State :=
  set_runnerQueue (runnerQueue st ++ [k]) st.

(** [with_instance(method)] posts the closure to the main thread. *)
Definition with_instance (method : InstanceMethod) (st : State) : State :=
  set_mainQueue (mainQueue st ++ [method]) st.

(** Modelled from the spec: [GetNextRequestId] is defined elsewhere; it
    is a fetch-and-increment on one process-wide counter. *)
Definition GetNextRequestId (st : State) : mtpRequestId * State :=
  let result := lastRequestId st + 1 in
  (result, set_lastRequestId result st).

(** ** The sender's private operations *)

Definition senderRequestRegister (requestId : mtpRequestId)
    (handlers : Handlers) (st : State) : State :=
  set_requests (flat_map.emplace requestId handlers (_requests st)) st.

Definition senderRequestDone (requestId : mtpRequestId) (result : bytes)
    (st : State) : State :=
  let '(taken, rest) := flat_map.take requestId (_requests st) in
  let st := set_requests rest st in
  match taken with
  | Some handlers =>
      let st := invoke (DoneInvoked handlers requestId result) st in
      match done handlers requestId result with
      | None => st
      | Some what =>
          invoke (FailInvoked handlers requestId
                    (rpcClientError "RESPONSE_PARSE_FAILED"
                       (String.append "exception text: " what))) st
      end
  | None => st
  end.

Definition senderRequestFail (requestId : mtpRequestId) (error : RPCError)
    (st : State) : State :=
  let '(taken, rest) := flat_map.take requestId (_requests st) in
  let st := set_requests rest st in
  match taken with
  | Some handlers => invoke (FailInvoked handlers requestId error) st
  | None => st
  end.

Definition senderRequestDetach (requestId : mtpRequestId) (st : State) : State :=
  set_requests (flat_map.erase requestId (_requests st)) st.

Definition senderRequestCancel (requestId : mtpRequestId) (st : State) : State :=
  let st := senderRequestDetach requestId st in
  with_instance (CancelOne requestId) st.

(** [std::vector<mtpRequestId>(n)] holds [n] zeros; [push_back] appends
    after them.  [base::take(_requests)] leaves the map empty. *)
Definition senderRequestCancelAll (st : State) : State :=
  let list := replicate (size (_requests st)) 0 in
  let taken := _requests st in
  let st := set_requests ∅ st in
  let list := foldl (λ l requestId, l ++ [requestId]) list (flat_map.keys taken) in
  with_instance (CancelEach list) st.

(** The destructor: after it the weak pointers are null. *)
Definition destroy (st : State) : State :=
  set_alive false (senderRequestCancelAll st).

(** ** Response handlers, called by the instance *)

Definition RPCDoneHandler_call (requestId : mtpRequestId)
    (response : list mtpPrime) (st : State) : State :=
  _runner (DoneContinuation requestId (make_vector response)) st.

Definition RPCFailHandler_call (_skipPolicy : FailSkipPolicy)
    (requestId : mtpRequestId) (error : RPCError) (st : State) : bool * State :=
  if (if decide (_skipPolicy = Simple) then isDefaultHandledError error
      else if decide (_skipPolicy = HandleFlood)
           then isDefaultHandledError error && negb (isFloodError error)
           else false)
  then (false, st)
  else (true, _runner (FailContinuation requestId error) st).

(** Running a continuation: [if (const auto strong = weak.get())]. *)
Definition run_continuation (k : Continuation) (st : State) : State :=
  if alive st then
    match k with
    | DoneContinuation requestId moved => senderRequestDone requestId moved st
    | FailContinuation requestId error => senderRequestFail requestId error st
    end
  else st.

(** Running a main-thread closure: [if (const auto instance = MainInstance())]. *)
Definition instance_call (c : InstanceCall) (st : State) : State :=
  set_instanceCalls (instanceCalls st ++ [c]) st.

Definition run_method (method : InstanceMethod) (st : State) : State :=
  if mainInstance st then
    match method with
    | SendSerialized requestId request callbacks dcId msCanWait afterRequestId =>
        instance_call
          (sendSerialized requestId request callbacks dcId msCanWait afterRequestId) st
    | CancelOne requestId => instance_call (cancel requestId) st
    | CancelEach list =>
        foldl (λ st requestId, instance_call (cancel requestId) st) st list
    end
  else st.

(** ** RequestBuilder *)
Record RequestBuilder := {
  _serialized : mtpRequest;
  _handlers : Handlers;
  _dcId : ShiftedDcId;
  _canWait : TimeMs;
  _failSkipPolicy : FailSkipPolicy;
  _afterRequestId : mtpRequestId;
}.

Definition setToDC (dcId : ShiftedDcId) (b : RequestBuilder) : RequestBuilder :=
  {| _serialized := _serialized b; _handlers := _handlers b; _dcId := dcId;
     _canWait := _canWait b; _failSkipPolicy := _failSkipPolicy b;
     _afterRequestId := _afterRequestId b |}.

Definition setCanWait (ms : TimeMs) (b : RequestBuilder) : RequestBuilder :=
  {| _serialized := _serialized b; _handlers := _handlers b; _dcId := _dcId b;
     _canWait := ms; _failSkipPolicy := _failSkipPolicy b;
     _afterRequestId := _afterRequestId b |}.

Definition setFailSkipPolicy (policy : FailSkipPolicy) (b : RequestBuilder)
    : RequestBuilder :=
  {| _serialized := _serialized b; _handlers := _handlers b; _dcId := _dcId b;
     _canWait := _canWait b; _failSkipPolicy := policy;
     _afterRequestId := _afterRequestId b |}.

Definition setAfter (requestId : mtpRequestId) (b : RequestBuilder) : RequestBuilder :=
  {| _serialized := _serialized b; _handlers := _handlers b; _dcId := _dcId b;
     _canWait := _canWait b; _failSkipPolicy := _failSkipPolicy b;
     _afterRequestId := requestId |}.

Definition send (b : RequestBuilder) (st : State) : mtpRequestId * State :=
  let '(requestId, st) := GetNextRequestId st in
  let dcId := _dcId b in
  let msCanWait := _canWait b in
  let afterRequestId := _afterRequestId b in
  let st := senderRequestRegister requestId (_handlers b) st in
  let st :=
    with_instance
      (SendSerialized requestId (_serialized b)
         {| onDone := tt; onFail := _failSkipPolicy b |}
         dcId msCanWait afterRequestId) st in
  (requestId, st).

(** ** Runs

    What the caller does with a live sender. *)
Inductive Operation :=
| OpComplete (requestId : mtpRequestId) (result : bytes)
| OpFail (requestId : mtpRequestId) (error : RPCError)
| OpCancel (requestId : mtpRequestId)
| OpDetach (requestId : mtpRequestId).

Definition apply_op (op : Operation) (st : State) : State :=
  match op with
  | OpComplete requestId result => senderRequestDone requestId result st
  | OpFail requestId error => senderRequestFail requestId error st
  | OpCancel requestId => senderRequestCancel requestId st
  | OpDetach requestId => senderRequestDetach requestId st
  end.

Definition run_ops (ops : list Operation) (st : State) : State :=
  foldl (λ st op, apply_op op st) st ops.

(** The handler calls made between two states of one run. *)
Definition since (st st' : State) : list Invocation :=
  drop (length (invoked st)) (invoked st').

(** The handler calls made by each operation of a run, in order. *)
Fixpoint trace (ops : list Operation) (st : State) : list (list Invocation) :=
  match ops with
  | [] => []
  | op :: ops => since st (apply_op op st) :: trace ops (apply_op op st)
  end.

(** The calls that went to the handlers of one id. *)
Definition calls_for (requestId : mtpRequestId) (calls : list Invocation)
    : list Invocation :=
  filter (λ i, invocation_id i = requestId) calls.

(** One delivery to the pair [handlers] of [requestId]: nothing, or
    [done] (followed by [fail] only if [done] threw), or [fail]. *)
Definition one_dispatch (handlers : Handlers) (requestId : mtpRequestId)
    (calls : list Invocation) : Prop :=
  calls = []
  ∨ (∃ result,
       calls = DoneInvoked handlers requestId result ::
               match done handlers requestId result with
               | None => []
               | Some what =>
                   [FailInvoked handlers requestId
                      (rpcClientError "RESPONSE_PARSE_FAILED"
                         (String.append "exception text: " what))]
               end)
  ∨ (∃ error, calls = [FailInvoked handlers requestId error]).

Definition touches (requestId : mtpRequestId) (calls : list Invocation) : bool :=
  existsb (λ i, Z.eqb (invocation_id i) requestId) calls.

(** What happens around the sender without the caller touching it: the
    instance answers, the runner runs a continuation it was given (in
    any order), the main thread runs its oldest closure, the instance
    comes and goes. *)
Inductive Event :=
| DeliverDone (requestId : mtpRequestId) (response : list mtpPrime)
| DeliverFail (policy : FailSkipPolicy) (requestId : mtpRequestId) (error : RPCError)
| RunContinuation (n : nat)
| RunMain
| SetInstance (present : bool).

Definition step (ev : Event) (st : State) : State :=
  match ev with
  | DeliverDone requestId response => RPCDoneHandler_call requestId response st
  | DeliverFail policy requestId error =>
      snd (RPCFailHandler_call policy requestId error st)
  | RunContinuation n =>
      match runnerQueue st !! n with
      | Some k => run_continuation k (set_runnerQueue (delete n (runnerQueue st)) st)
      | None => st
      end
  | RunMain =>
      match mainQueue st with
      | method :: rest => run_method method (set_mainQueue rest st)
      | [] => st
      end
  | SetInstance present => set_mainInstance present st
  end.

Definition run (evs : list Event) (st : State) : State :=
  foldl (λ st ev, step ev st) st evs.

(** Every pending id was handed out by the generator. *)
Definition ids_issued (st : State) : Prop :=
  ∀ requestId, is_Some (_requests st !! requestId) → requestId ≤ lastRequestId st.

(** ** More about runs *)

Definition continuation_id (k : Continuation) : mtpRequestId :=
  match k with
  | DoneContinuation requestId _ => requestId
  | FailContinuation requestId _ => requestId
  end.

Definition op_id (op : Operation) : mtpRequestId :=
  match op with
  | OpComplete requestId _ => requestId
  | OpFail requestId _ => requestId
  | OpCancel requestId => requestId
  | OpDetach requestId => requestId
  end.

(** Several builders sent one after the other; the ids come back in the
    order of the builders. *)
Fixpoint send_all (bs : list RequestBuilder) (st : State)
    : list mtpRequestId * State :=
  match bs with
  | [] => ([], st)
  | b :: bs =>
      let '(requestId, st) := send b st in
      let '(ids, st) := send_all bs st in
      (requestId :: ids, st)
  end.

(** Whether a main-thread closure, or a call the instance received, is
    the hand-off of the given request. *)
Definition hands_off (requestId : mtpRequestId) (method : InstanceMethod) : bool :=
  match method with
  | SendSerialized r _ _ _ _ _ => r =? requestId
  | _ => false
  end.

Definition handed_off (requestId : mtpRequestId) (c : InstanceCall) : bool :=
  match c with
  | sendSerialized r _ _ _ _ _ => r =? requestId
  | cancel _ => false
  end.

End Sender.

(** ** A concrete instance, used to run the definitions *)
Module Sample.
Record RPCError := { code : Z; type : string }.

Definition isFloodError (e : RPCError) : bool := code e =? 420.

Definition isDefaultHandledError (e : RPCError) : bool :=
  (code e <? 0) || (500 <=? code e) || isFloodError e.

Definition rpcClientError (type description : string) : RPCError :=
  {| code := 0; type := String.append type (String.append ": " description) |}.

Definition make_vector (response : list Z) : list Byte.byte :=
  (λ p, default Byte.x00 (Byte.of_N (Z.to_N (p mod 256)))) <$> response.

Definition flood : RPCError := {| code := 420; type := "FLOOD_WAIT_3" |}.
Definition internal : RPCError := {| code := 500; type := "INTERNAL" |}.

(** A handler pair that accepts every answer. *)
Definition accepting : @Handlers RPCError :=
  {| done := λ _ _, None; fail := λ _ _, true |}.

(** A handler pair whose parser rejects every answer. *)
Definition rejecting : @Handlers RPCError :=
  {| done := λ _ _, Some "bad constructor"%string; fail := λ _ _, true |}.

Definition OK : list Byte.byte := [Byte.x4f; Byte.x4b].

Definition fresh : @State RPCError :=
  {| lastRequestId := 0; alive := true; _requests := ∅;
     runnerQueue := []; mainQueue := []; mainInstance := true;
     instanceCalls := []; invoked := [] |}.

Definition builder (handlers : @Handlers RPCError) : @RequestBuilder RPCError :=
  {| _serialized := [1; 2]; _handlers := handlers; _dcId := 0; _canWait := 0;
     _failSkipPolicy := Simple; _afterRequestId := 0 |}.

(** The sender after one and after two [send]s. *)
Definition one_pending : @State RPCError := snd (send (builder accepting) fresh).
Definition two_pending : @State RPCError := snd (send (builder rejecting) one_pending).
End Sample.

(** * Ui::PaidReactionsBox: the slider scale and the rows below it

    The parts of [payments/ui/payments_reaction_box.cpp] that compute:
    the piecewise-linear scale between slider position and amount, and
    the integer layout of the top-reactor row and of the label.  C++
    [double] is the binary64 type [float]; C++ [int] values are written
    in [Z], and the theorems bound the results by the arguments; the
    label layout, whose arguments are not bounded by the code around it,
    has its 32-bit reduction written out. *)
Module PaidReaction.
Import PrimFloat.

(** A call either returns, or stops at a violated [Expects], or
    dereferences an iterator that is at [end()]. *)
Inductive outcome (A : Type) :=
| Ok (a : A)
| ExpectsFailed
| PastTheEnd.
Arguments Ok {A} a.
Arguments ExpectsFailed {A}.
Arguments PastTheEnd {A}.

Definition kMaxTopPaidShown : Z := 3.

(** [std::clamp(v, lo, hi)] on [int] and on [double]. *)
Definition clamp (v lo hi : Z) : Z :=
  if v <? lo then lo else if hi <? v then hi else v.

Definition clamp_ratio (v lo hi : float) : float :=
  if ltb v lo then lo else if ltb hi v then hi else v.

(** The conversion of an [int] to [double]. *)
Definition float64_of_int (n : Z) : float :=
  if n <? 0 then opp (of_uint63 (Uint63.of_Z (- n)))
  else of_uint63 (Uint63.of_Z n).

(** [base::flat_map<float64, int>]: a vector of pairs kept in key order.
    [lower_bound] splits it at the first key that is not less than the
    given one. *)
Fixpoint lower_bound (key : float) (m : list (float * Z))
    : list (float * Z) * list (float * Z) :=
  match m with
  | [] => ([], [])
  | e :: rest =>
      if ltb (fst e) key then
        let '(before, from) := lower_bound key rest in (e :: before, from)
      else ([], m)
  end.

Definition emplace (key : float) (value : Z) (m : list (float * Z))
    : list (float * Z) :=
  let '(before, from) := lower_bound key m in
  match from with
  | [] => before ++ [(key, value)]
  | e :: _ => if ltb key (fst e) then before ++ (key, value) :: from else m
  end.

(** The table built at the start of [DiscreterForMax]. *)
Definition thresholds (max : Z) : list (float * Z) :=
  let thresholds := emplace 0 1 [] in
  if max <=? 40 then
    emplace 1 max thresholds
  else if max <=? 300 then
    emplace 1 max (emplace (1 / 4) 10 thresholds)
  else if max <=? 600 then
    emplace 1 max (emplace (1 / 2) 100 (emplace (1 / 8) 10 thresholds))
  else if max <=? 1900 then
    emplace 1 max (emplace (1 / 3) 100 (emplace (1 / 8) 10 thresholds))
  else
    emplace 1 max
      (emplace (2 / 3) 1000 (emplace (1 / 3) 100 (emplace (1 / 8) 10 thresholds))).

(** The loop of [valueToRatio]: [i] and [j = i + 1] move right while
    [j->second < value]; [None] when [j] reaches [end()]. *)
Fixpoint seek (value : Z) (i : float * Z) (rest : list (float * Z))
    : option ((float * Z) * (float * Z)) :=
  match rest with
  | [] => None
  | j :: rest => if snd j <? value then seek value j rest else Some (i, j)
  end.

Section Discreter.
(** [base::SafeRound] and the conversion of its result to [int] are not
    part of this file. *)
Context (SafeRound : float → float) (int_of_float64 : float → Z).

Definition ratioToValue (thresholds : list (float * Z)) (ratio : float)
    : outcome Z :=
  let ratio := clamp_ratio ratio 0 1 in
  let '(before, from) := lower_bound ratio thresholds in
  match last before with
  | None => Ok 1
  | Some i =>
      match from with
      | [] => PastTheEnd
      | j :: _ =>
          let progress := ((ratio - fst i) / (fst j - fst i))%float in
          let value :=
            (float64_of_int (snd i)
             + float64_of_int (snd j - snd i) * progress)%float in
          Ok (int_of_float64 (SafeRound value))
      end
  end.

Definition valueToRatio (max : Z) (thresholds : list (float * Z)) (value : Z)
    : outcome float :=
  let value := clamp value 1 max in
  match thresholds with
  | [] => PastTheEnd
  | i :: rest =>
      match seek value i rest with
      | None => PastTheEnd
      | Some (i, j) =>
          let progress :=
            (float64_of_int (value - snd i)
             / float64_of_int (snd j - snd i))%float in
          Ok (fst i + (fst j - fst i) * progress)%float
      end
  end.

Record Discreter := {
  discreter_ratioToValue : float → outcome Z;
  discreter_valueToRatio : Z → outcome float;
}.

Definition DiscreterForMax (max : Z) : outcome Discreter :=
  if negb (2 <=? max) then ExpectsFailed
  else
    Ok {| discreter_ratioToValue := ratioToValue (thresholds max);
          discreter_valueToRatio := valueToRatio max (thresholds max) |}.

(** [PaidReactionSlider]: the value the slider starts at, and its adjust
    callback [valueToRatio(ratioToValue(ratio))]. *)
Record Slider := {
  slider_value : float;
  slider_adjust : float → outcome float;
}.

Definition PaidReactionSlider (current max : Z) : outcome Slider :=
  if negb ((1 <=? current) && (current <=? max)) then ExpectsFailed
  else
    match DiscreterForMax max with
    | Ok discreter =>
        match discreter_valueToRatio discreter current with
        | Ok start =>
            Ok {| slider_value := start;
                  slider_adjust := λ ratio,
                    match discreter_ratioToValue discreter ratio with
                    | Ok value => discreter_valueToRatio discreter value
                    | ExpectsFailed => ExpectsFailed
                    | PastTheEnd => PastTheEnd
                    end |}
        | ExpectsFailed => ExpectsFailed
        | PastTheEnd => PastTheEnd
        end
    | ExpectsFailed => ExpectsFailed
    | PastTheEnd => PastTheEnd
    end.

(** The first two lines of [PaidReactionsBox] and the slider it makes
    from the arguments they leave. *)
Definition PaidReactionsBox_args (max chosen : Z) : Z * Z :=
  let max := Z.max max 2 in
  let chosen := clamp chosen 1 max in
  (max, chosen).

Definition PaidReactionsBox_slider (max chosen : Z) : outcome Slider :=
  let '(max, chosen) := PaidReactionsBox_args max chosen in
  PaidReactionSlider chosen max.

End Discreter.

(** ** The row of top reactors *)
Record Geometry := { geo_x : Z; geo_y : Z; geo_w : Z; geo_h : Z }.

Definition topCount (size : Z) : Z := Z.min size kMaxTopPaidShown.

(** [for (widget : widgets) { widget->setGeometry(left, 0, single,
    height); left += single; }] *)
Fixpoint setGeometries (left single height : Z) (widgets : list Geometry)
    : list Geometry :=
  match widgets with
  | [] => []
  | _ :: widgets =>
      {| geo_x := left; geo_y := 0; geo_w := single; geo_h := height |}
      :: setGeometries (left + single) single height widgets
  end.

(** The [widthValue()] handler of [FillTopReactors]; [int] division
    truncates.  [paidReactTopUserpic] is a style constant. *)
Definition FillTopReactors_layout (paidReactTopUserpic height topCount width : Z)
    (widgets : list Geometry) : list Geometry :=
  let single := width ÷ 4 in
  if single <=? paidReactTopUserpic then widgets
  else
    let left := (width - single * topCount) ÷ 2 in
    setGeometries left single height widgets.

(** A result of [int] arithmetic, reduced to 32 bits two's complement. *)
Definition int32 (z : Z) : Z :=
  (z + 2147483648) mod 4294967296 - 2147483648.

(** The [heightValue()] handler of the label: the height given to the
    wrap and the top of the label inside it.  [fontHeight] is
    [st::normalFont->height]; every [int] product, difference and sum is
    reduced to 32 bits. *)
Definition label_layout (fontHeight height : Z) : Z * Z :=
  let min := int32 (2 * fontHeight) in
  let skip := Z.max (int32 (min - height) ÷ 2) 0 in
  (int32 (int32 (2 * skip) + height), skip).

End PaidReaction.

(** * Properties *)
Section Properties.
Context {RPCError : Type}.
Context (isDefaultHandledError isFloodError : RPCError → bool).
Context (rpcClientError : string → string → RPCError).
Context (make_vector : list Z → list Byte.byte).

Implicit Types (st w : @State RPCError) (handlers : @Handlers RPCError).
Implicit Types (requestId : Z) (error : RPCError) (result : list Byte.byte).

(** ** Records and the map *)

Lemma set_requests_same st : set_requests (_requests st) st = st.
Proof. by destruct st. Qed.

Lemma take_absent (m : gmap Z (@Handlers RPCError)) requestId :
  m !! requestId = None → flat_map.take requestId m = (None, m).
Proof. intros Hm. unfold flat_map.take. by rewrite Hm, delete_id. Qed.

Lemma emplace_lookup (m : gmap Z (@Handlers RPCError)) k handlers :
  is_Some (flat_map.emplace k handlers m !! k).
Proof.
  unfold flat_map.emplace. destruct (m !! k) eqn:Hk.
  - rewrite Hk. eauto.
  - rewrite lookup_insert_eq. eauto.
Qed.

Lemma emplace_other (m : gmap Z (@Handlers RPCError)) k k' handlers :
  k ≠ k' → flat_map.emplace k handlers m !! k' = m !! k'.
Proof.
  intros Hne. unfold flat_map.emplace.
  destruct (m !! k); [done | by rewrite lookup_insert_ne].
Qed.

Lemma since_app st st' delta :
  invoked st' = invoked st ++ delta → since st st' = delta.
Proof. intros Hst. unfold since. rewrite Hst. by rewrite drop_app_length. Qed.

(** ** What one completion or failure does *)

Lemma senderRequestDone_absent st requestId result :
  _requests st !! requestId = None →
  senderRequestDone rpcClientError requestId result st = st.
Proof.
  intros Hm. unfold senderRequestDone. rewrite (take_absent _ _ Hm).
  apply set_requests_same.
Qed.

Lemma senderRequestFail_absent st requestId error :
  _requests st !! requestId = None →
  senderRequestFail requestId error st = st.
Proof.
  intros Hm. unfold senderRequestFail. rewrite (take_absent _ _ Hm).
  apply set_requests_same.
Qed.

Lemma senderRequestDone_requests st requestId result :
  _requests (senderRequestDone rpcClientError requestId result st)
  = delete requestId (_requests st).
Proof.
  unfold senderRequestDone, flat_map.take.
  destruct (_requests st !! requestId) as [h|]; [|done].
  by destruct (done h requestId result).
Qed.

Lemma senderRequestFail_requests st requestId error :
  _requests (senderRequestFail requestId error st)
  = delete requestId (_requests st).
Proof.
  unfold senderRequestFail, flat_map.take.
  by destruct (_requests st !! requestId).
Qed.

Lemma senderRequestDone_invoked st requestId result handlers :
  _requests st !! requestId = Some handlers →
  invoked (senderRequestDone rpcClientError requestId result st)
  = invoked st ++
    DoneInvoked handlers requestId result ::
    match done handlers requestId result with
    | None => []
    | Some what =>
        [FailInvoked handlers requestId
           (rpcClientError "RESPONSE_PARSE_FAILED"
              (String.append "exception text: " what))]
    end.
Proof.
  intros Hm. unfold senderRequestDone, flat_map.take. rewrite Hm.
  destruct (done handlers requestId result); simpl; [|done].
  by rewrite <- app_assoc.
Qed.

Lemma senderRequestFail_invoked st requestId error handlers :
  _requests st !! requestId = Some handlers →
  invoked (senderRequestFail requestId error st)
  = invoked st ++ [FailInvoked handlers requestId error].
Proof.
  intros Hm. unfold senderRequestFail, flat_map.take. by rewrite Hm.
Qed.

(** ** One operation of the caller *)

Lemma calls_for_same requestId (calls : list (@Invocation RPCError)) :
  Forall (λ i, invocation_id i = requestId) calls →
  calls_for requestId calls = calls.
Proof.
  unfold calls_for. induction 1 as [|i l Hi _ IH]; [done|].
  rewrite filter_cons_True by done. by rewrite IH.
Qed.

Lemma calls_for_other requestId other (calls : list (@Invocation RPCError)) :
  other ≠ requestId →
  Forall (λ i, invocation_id i = other) calls →
  calls_for requestId calls = [].
Proof.
  intros Hne. unfold calls_for. induction 1 as [|i l Hi _ IH]; [done|].
  rewrite filter_cons_False by congruence. apply IH.
Qed.

Lemma calls_for_app requestId (a b : list (@Invocation RPCError)) :
  calls_for requestId (a ++ b) = calls_for requestId a ++ calls_for requestId b.
Proof. apply filter_app. Qed.

Lemma touches_calls_for requestId (calls : list (@Invocation RPCError)) :
  touches requestId calls = false ↔ calls_for requestId calls = [].
Proof.
  unfold touches, calls_for. induction calls as [|i l IH]; [done|].
  simpl. destruct (Z.eqb_spec (invocation_id i) requestId) as [Heq|Hne].
  - rewrite filter_cons_True by done. split; discriminate.
  - rewrite filter_cons_False by done. apply IH.
Qed.

(** Each operation extends [invoked]; for a given id it either leaves
    the entry alone and calls none of its handlers, or removes the
    entry with at most one delivery to its pair. *)
Lemma apply_op_cases st op requestId :
  let st1 := apply_op rpcClientError op st in
  let d := since st st1 in
  invoked st1 = invoked st ++ d
  ∧ match _requests st !! requestId with
    | None => _requests st1 !! requestId = None ∧ calls_for requestId d = []
    | Some h =>
        (_requests st1 !! requestId = Some h ∧ calls_for requestId d = [])
        ∨ (_requests st1 !! requestId = None
           ∧ one_dispatch rpcClientError h requestId (calls_for requestId d))
    end.
Proof.
  assert (Hnil : ∀ st1, invoked st1 = invoked st → since st st1 = []).
  { intros st1 Hst1. apply since_app. by rewrite app_nil_r. }
  assert (Hkeep : ∀ st1 r,
    invoked st1 = invoked st →
    _requests st1 = delete r (_requests st) →
    invoked st1 = invoked st ++ since st st1
    ∧ match _requests st !! requestId with
      | None => _requests st1 !! requestId = None
                ∧ calls_for requestId (since st st1) = []
      | Some h =>
          (_requests st1 !! requestId = Some h
           ∧ calls_for requestId (since st st1) = [])
          ∨ (_requests st1 !! requestId = None
             ∧ one_dispatch rpcClientError h requestId
                 (calls_for requestId (since st st1)))
      end).
  { intros st1 r Hinv Hreq. rewrite (Hnil _ Hinv), app_nil_r. split; [done|].
    rewrite Hreq. destruct (decide (r = requestId)) as [->|Hne].
    - rewrite lookup_delete_eq. destruct (_requests st !! requestId); [|done].
      right. split; [done|]. by left.
    - rewrite lookup_delete_ne by done.
      destruct (_requests st !! requestId); [left|]; done. }
  destruct op as [r res|r e|r|r]; cbv zeta; simpl apply_op.
  - destruct (_requests st !! r) as [hr|] eqn:Hr.
    + pose proof (senderRequestDone_invoked st r res hr Hr) as Hinv.
      rewrite (since_app _ _ _ Hinv). split; [done|].
      rewrite senderRequestDone_requests.
      set (d := DoneInvoked hr r res :: _).
      assert (Hd : Forall (λ i, invocation_id i = r) d).
      { unfold d. destruct (done hr r res); repeat constructor. }
      destruct (decide (r = requestId)) as [<-|Hne].
      * rewrite Hr, lookup_delete_eq. right. split; [done|].
        rewrite (calls_for_same _ _ Hd). right. left. by exists res.
      * rewrite lookup_delete_ne by done.
        rewrite (calls_for_other _ _ _ Hne Hd).
        destruct (_requests st !! requestId); [left|]; done.
    + rewrite (senderRequestDone_absent _ _ _ Hr).
      apply (Hkeep st r); [done|]. by rewrite delete_id.
  - destruct (_requests st !! r) as [hr|] eqn:Hr.
    + pose proof (senderRequestFail_invoked st r e hr Hr) as Hinv.
      rewrite (since_app _ _ _ Hinv). split; [done|].
      rewrite senderRequestFail_requests.
      destruct (decide (r = requestId)) as [<-|Hne].
      * rewrite Hr, lookup_delete_eq. right. split; [done|].
        rewrite calls_for_same by (by repeat constructor).
        right. right. by exists e.
      * rewrite lookup_delete_ne by done.
        rewrite (calls_for_other requestId r) by (done || by repeat constructor).
        destruct (_requests st !! requestId); [left|]; done.
    + rewrite (senderRequestFail_absent _ _ _ Hr).
      apply (Hkeep st r); [done|]. by rewrite delete_id.
  - by apply (Hkeep _ r).
  - by apply (Hkeep _ r).
Qed.

Lemma apply_op_absent st op requestId :
  _requests st !! requestId = None →
  _requests (apply_op rpcClientError op st) !! requestId = None
  ∧ touches requestId (since st (apply_op rpcClientError op st)) = false.
Proof.
  intros Hm. destruct (apply_op_cases st op requestId) as [_ Hc].
  rewrite Hm in Hc. destruct Hc as [? ?]. split; [done|].
  by apply touches_calls_for.
Qed.

Lemma apply_op_touched st op requestId :
  touches requestId (since st (apply_op rpcClientError op st)) = true →
  _requests (apply_op rpcClientError op st) !! requestId = None.
Proof.
  intros Ht. destruct (apply_op_cases st op requestId) as [_ Hc].
  destruct (_requests st !! requestId).
  - destruct Hc as [[_ Hnil]|[? _]]; [|done].
    apply touches_calls_for in Hnil. congruence.
  - by destruct Hc.
Qed.

(** ** Runs of operations *)

Lemma run_ops_cons op ops st :
  run_ops rpcClientError (op :: ops) st
  = run_ops rpcClientError ops (apply_op rpcClientError op st).
Proof. done. Qed.

Lemma invoked_run_ops ops st :
  invoked (run_ops rpcClientError ops st)
  = invoked st ++ concat (trace rpcClientError ops st).
Proof.
  revert st. induction ops as [|op ops IH]; intros st.
  - simpl. by rewrite app_nil_r.
  - rewrite run_ops_cons, IH. simpl.
    destruct (apply_op_cases st op 0) as [-> _]. by rewrite <- app_assoc.
Qed.

Lemma run_ops_absent ops st requestId :
  _requests st !! requestId = None →
  _requests (run_ops rpcClientError ops st) !! requestId = None
  ∧ Forall (λ calls, touches requestId calls = false) (trace rpcClientError ops st).
Proof.
  revert st. induction ops as [|op ops IH]; intros st Hm; [by split|].
  destruct (apply_op_absent st op requestId Hm) as [Hm1 Ht].
  destruct (IH _ Hm1) as [Hm2 Hall]. rewrite run_ops_cons. split; [done|].
  simpl. by constructor.
Qed.

Lemma filter_untouched requestId (l : list (list (@Invocation RPCError))) :
  Forall (λ calls, touches requestId calls = false) l →
  filter (λ calls, touches requestId calls = true) l = []
  ∧ calls_for requestId (concat l) = [].
Proof.
  induction 1 as [|c l Hc _ [IH1 IH2]]; [done|]. split.
  - rewrite filter_cons_False by congruence. done.
  - simpl. rewrite calls_for_app, IH2, app_nil_r.
    by apply touches_calls_for.
Qed.

(** ** After destruction *)

Lemma instance_calls_foldl w (ids : list Z) :
  let w' := foldl (λ st requestId, instance_call (cancel requestId) st) w ids in
  instanceCalls w' = instanceCalls w ++ (cancel <$> ids)
  ∧ alive w' = alive w
  ∧ invoked w' = invoked w
  ∧ _requests w' = _requests w
  ∧ lastRequestId w' = lastRequestId w.
Proof.
  revert w. induction ids as [|requestId ids IH]; intros w; simpl.
  - by rewrite app_nil_r.
  - destruct (IH (instance_call (cancel requestId) w)) as (-> & -> & -> & -> & ->).
    simpl. by rewrite <- app_assoc.
Qed.

Lemma run_method_quiet method w :
  alive (run_method method w) = alive w
  ∧ invoked (run_method method w) = invoked w
  ∧ _requests (run_method method w) = _requests w
  ∧ lastRequestId (run_method method w) = lastRequestId w.
Proof.
  unfold run_method. destruct (mainInstance w); [|done].
  destruct method as [? ? ? ? ? ?| ?|ids]; try done.
  by destruct (instance_calls_foldl w ids) as (_ & ? & ? & ? & ?).
Qed.

Lemma step_dead ev st :
  alive st = false →
  alive (step isDefaultHandledError isFloodError rpcClientError make_vector ev st)
  = false
  ∧ invoked (step isDefaultHandledError isFloodError rpcClientError make_vector ev st)
    = invoked st.
Proof.
  intros Hdead. destruct ev as [r resp|policy r e|n| |present]; simpl.
  - done.
  - unfold RPCFailHandler_call.
    destruct policy; simpl;
      destruct (isDefaultHandledError e), (isFloodError e); done.
  - destruct (runnerQueue st !! n) as [k|]; [|done].
    unfold run_continuation. simpl. by rewrite Hdead.
  - destruct (mainQueue st) as [|method rest]; [done|].
    destruct (run_method_quiet method (set_mainQueue rest st)) as (-> & -> & _).
    done.
  - done.
Qed.

Lemma run_dead evs st :
  alive st = false →
  alive (run isDefaultHandledError isFloodError rpcClientError make_vector evs st)
  = false
  ∧ invoked (run isDefaultHandledError isFloodError rpcClientError make_vector evs st)
    = invoked st.
Proof.
  revert st. induction evs as [|ev evs IH]; intros st Hdead; [done|].
  destruct (step_dead ev st Hdead) as [Hdead1 Hinv1].
  destruct (IH _ Hdead1) as [Hdead2 Hinv2].
  unfold run in *. simpl. by rewrite Hinv2.
Qed.

(** ** The list built by [senderRequestCancelAll] *)

Lemma push_back_all (acc ids : list Z) :
  foldl (λ l requestId, l ++ [requestId]) acc ids = acc ++ ids.
Proof.
  revert acc. induction ids as [|requestId ids IH]; intros acc; simpl.
  - by rewrite app_nil_r.
  - by rewrite IH, <- app_assoc.
Qed.

Lemma keys_pending (m : gmap Z (@Handlers RPCError)) requestId :
  requestId ∈ flat_map.keys m ↔ is_Some (m !! requestId).
Proof.
  unfold flat_map.keys. rewrite merge_sort_Permutation.
  rewrite list_elem_of_fmap. split.
  - intros [[k h] [-> Hkh]]. apply elem_of_map_to_list in Hkh. eauto.
  - intros [h Hh]. exists (requestId, h). split; [done|].
    by apply elem_of_map_to_list.
Qed.

Lemma keys_length (m : gmap Z (@Handlers RPCError)) :
  length (flat_map.keys m) = size m.
Proof.
  unfold flat_map.keys. rewrite merge_sort_Permutation, length_fmap.
  by rewrite length_map_to_list.
Qed.

Lemma senderRequestCancelAll_queue st :
  mainQueue (senderRequestCancelAll st)
  = mainQueue st ++
    [CancelEach (replicate (size (_requests st)) 0 ++ flat_map.keys (_requests st))].
Proof. unfold senderRequestCancelAll. simpl. by rewrite push_back_all. Qed.

(** The vector handed to the main thread is twice as long as the map
    was: the value-initialised slots stay in front of the ids. *)
Lemma senderRequestCancelAll_twice st :
  ∃ list,
    mainQueue (senderRequestCancelAll st) = mainQueue st ++ [CancelEach list]
    ∧ length list = (2 * size (_requests st))%nat
    ∧ take (size (_requests st)) list = replicate (size (_requests st)) 0.
Proof.
  eexists. split; [apply senderRequestCancelAll_queue|]. split.
  - rewrite length_app, length_replicate, keys_length. lia.
  - rewrite take_app_length'; [done|]. by rewrite length_replicate.
Qed.

Lemma run_ops_dispatch ops st requestId handlers :
  _requests st !! requestId = Some handlers →
  one_dispatch rpcClientError handlers requestId
    (calls_for requestId (concat (trace rpcClientError ops st))).
Proof.
  revert st. induction ops as [|op ops IH]; intros st Hm; [by left|].
  simpl. rewrite calls_for_app.
  destruct (apply_op_cases st op requestId) as [_ Hc]. rewrite Hm in Hc.
  destruct Hc as [[Hm1 ->]|[Hm1 Hone]].
  - by apply IH.
  - destruct (run_ops_absent ops _ _ Hm1) as [_ Hall].
    destruct (filter_untouched _ _ Hall) as [_ ->]. by rewrite app_nil_r.
Qed.

(** ** The id generator stays ahead of the map *)

Lemma apply_op_requests st op :
  ∃ requestId,
    _requests (apply_op rpcClientError op st) = delete requestId (_requests st).
Proof.
  destruct op as [r res|r e|r|r]; exists r; simpl.
  - apply senderRequestDone_requests.
  - apply senderRequestFail_requests.
  - done.
  - done.
Qed.

Lemma apply_op_lastRequestId st op :
  lastRequestId (apply_op rpcClientError op st) = lastRequestId st.
Proof.
  destruct op as [r res|r e|r|r]; simpl; try done.
  - unfold senderRequestDone, flat_map.take.
    destruct (_requests st !! r) as [h|]; [|done].
    by destruct (done h r res).
  - unfold senderRequestFail, flat_map.take.
    by destruct (_requests st !! r).
Qed.

Lemma ids_issued_apply_op st op :
  ids_issued st → ids_issued (apply_op rpcClientError op st).
Proof.
  intros Hst k [h Hk]. rewrite apply_op_lastRequestId. apply Hst.
  destruct (apply_op_requests st op) as [r Hr]. rewrite Hr in Hk.
  apply lookup_delete_Some in Hk as [_ Hk]. eauto.
Qed.

Lemma ids_issued_send st b :
  ids_issued st → ids_issued (snd (send b st)).
Proof.
  intros Hst k. simpl. destruct (decide (lastRequestId st + 1 = k)) as [<-|Hne].
  - intros _. lia.
  - rewrite emplace_other by done. intros Hk. specialize (Hst k Hk). lia.
Qed.

Lemma ids_issued_step ev st :
  ids_issued st →
  ids_issued (step isDefaultHandledError isFloodError rpcClientError make_vector ev st).
Proof.
  intros Hst. destruct ev as [r resp|policy r e|n| |present]; simpl.
  - done.
  - unfold RPCFailHandler_call.
    destruct policy; simpl;
      destruct (isDefaultHandledError e), (isFloodError e); done.
  - destruct (runnerQueue st !! n) as [k|]; [|done].
    unfold run_continuation. simpl. destruct (alive st); [|done].
    destruct k as [r moved|r e].
    + by apply (ids_issued_apply_op _ (OpComplete r moved)).
    + by apply (ids_issued_apply_op _ (OpFail r e)).
  - destruct (mainQueue st) as [|method rest]; [done|].
    intros k.
    destruct (run_method_quiet method (set_mainQueue rest st)) as (_ & _ & Hreq & Hlast).
    rewrite Hreq, Hlast. apply Hst.
  - done.
Qed.

(** ** The claims about single calls *)

(** C2, as amended.  In any run of complete / fail / cancel / detach
    operations, at most one operation calls a handler of a given id,
    namely one that removes the id's entry; once the entry is gone it
    stays gone and no later operation calls a handler of that id.  What
    the pair of the id receives over the whole run is one delivery at
    most: [done] (with [fail] after it only as the redirect of a
    throwing [done]), or [fail], or nothing.  The pair can so be called
    twice, by one operation. *)
Theorem handlers_dispatched_at_most_once st ops requestId :
  (length (filter (λ calls, touches requestId calls = true)
             (trace rpcClientError ops st)) ≤ 1)%nat
  ∧ (_requests st !! requestId = None →
     _requests (run_ops rpcClientError ops st) !! requestId = None
     ∧ Forall (λ calls, touches requestId calls = false)
         (trace rpcClientError ops st))
  ∧ (∀ before op after,
       ops = before ++ op :: after →
       let st0 := run_ops rpcClientError before st in
       let st1 := apply_op rpcClientError op st0 in
       touches requestId (since st0 st1) = true →
       _requests st1 !! requestId = None
       ∧ Forall (λ calls, touches requestId calls = false)
           (trace rpcClientError after st1))
  ∧ (∀ handlers,
       _requests st !! requestId = Some handlers →
       one_dispatch rpcClientError handlers requestId
         (calls_for requestId (since st (run_ops rpcClientError ops st)))).
Proof.
  split; [|split; [|split]].
  - revert st. induction ops as [|op ops IH]; intros st; [simpl; lia|].
    simpl trace.
    destruct (touches requestId (since st (apply_op rpcClientError op st)))
      eqn:Ht.
    + rewrite filter_cons_True by done.
      pose proof (apply_op_touched _ _ _ Ht) as Hgone.
      destruct (run_ops_absent ops _ _ Hgone) as [_ Hall].
      destruct (filter_untouched _ _ Hall) as [-> _]. done.
    + rewrite filter_cons_False by congruence. apply IH.
  - apply run_ops_absent.
  - intros before op after _ st0 st1 Ht.
    pose proof (apply_op_touched _ _ _ Ht) as Hgone. split; [done|].
    by apply run_ops_absent.
  - intros h Hm. rewrite (since_app _ _ _ (invoked_run_ops ops st)).
    by apply run_ops_dispatch.
Qed.

(** C9. The destructor runs [senderRequestCancelAll] and then the weak
    pointers are null: the map is empty, a closure asking the instance
    to cancel every id that was pending is queued for the main thread,
    and whatever the instance delivers and whichever queued closures
    run afterwards, no handler is called any more. *)
Theorem no_handler_fires_after_destruction st evs :
  let st' := destroy st in
  let final :=
    run isDefaultHandledError isFloodError rpcClientError make_vector evs st' in
  alive st' = false
  ∧ _requests st' = ∅
  ∧ invoked st' = invoked st
  ∧ (∃ list,
       mainQueue st' = mainQueue st ++ [CancelEach list]
       ∧ ∀ requestId,
           is_Some (_requests st !! requestId) →
           requestId ∈ list
           ∧ ∀ w, mainInstance w = true →
               cancel requestId ∈ instanceCalls (run_method (CancelEach list) w))
  ∧ alive final = false
  ∧ invoked final = invoked st.
Proof.
  intros st' final.
  assert (Hdead : alive st' = false) by done.
  destruct (run_dead evs st' Hdead) as [Hdead' Hinv'].
  repeat split; try done.
  eexists. split.
  - unfold st', destroy. simpl mainQueue. rewrite push_back_all. done.
  - intros requestId Hpending.
    assert (Hin : requestId ∈
      replicate (size (_requests st)) 0 ++ flat_map.keys (_requests st)).
    { apply elem_of_app. right. by apply keys_pending. }
    split; [done|]. intros w Hw. unfold run_method. rewrite Hw.
    destruct (instance_calls_foldl w
      (replicate (size (_requests st)) 0 ++ flat_map.keys (_requests st)))
      as [-> _].
    apply elem_of_app. right. by apply list_elem_of_fmap_2.
Qed.

(** C3. When the id is registered and [done] throws while parsing the
    answer, [senderRequestDone] calls the [fail] handler of the same
    pair with [rpcClientError("RESPONSE_PARSE_FAILED", "exception text: "
    + what)]: the answer is not dropped, and the call returns normally
    with the entry removed. *)
Theorem complete_parse_failure_redirected st requestId result handlers what :
  _requests st !! requestId = Some handlers →
  done handlers requestId result = Some what →
  let st' := senderRequestDone rpcClientError requestId result st in
  invoked st' =
    invoked st ++
    [DoneInvoked handlers requestId result;
     FailInvoked handlers requestId
       (rpcClientError "RESPONSE_PARSE_FAILED"
          (String.append "exception text: " what))]
  ∧ _requests st' = delete requestId (_requests st).
Proof.
  intros Hm Hthrow st'. split.
  - unfold st'. rewrite (senderRequestDone_invoked _ _ _ _ Hm). by rewrite Hthrow.
  - apply senderRequestDone_requests.
Qed.

(** C4. Under [HandleFlood], an error that is both default-handled and
    a flood error is not swallowed: the fail adapter gives the runner
    the continuation and answers [true]; that continuation, run while
    the sender lives and the id is pending, calls the caller's [fail]
    with the id and the error. *)
Theorem flood_policy_escalates_flood st requestId error :
  isDefaultHandledError error = true →
  isFloodError error = true →
  RPCFailHandler_call isDefaultHandledError isFloodError HandleFlood
    requestId error st
  = (true, _runner (FailContinuation requestId error) st)
  ∧ runnerQueue (_runner (FailContinuation requestId error) st)
    = runnerQueue st ++ [FailContinuation requestId error]
  ∧ ∀ w handlers,
      alive w = true →
      _requests w !! requestId = Some handlers →
      invoked (run_continuation rpcClientError (FailContinuation requestId error) w)
      = invoked w ++ [FailInvoked handlers requestId error].
Proof.
  intros Hhandled Hflood. split; [|split].
  - unfold RPCFailHandler_call. simpl. by rewrite Hhandled, Hflood.
  - done.
  - intros w h Hw Hm. unfold run_continuation. rewrite Hw.
    by apply senderRequestFail_invoked.
Qed.

(** C5. Under the default policy ([Simple]), a default-handled error is
    swallowed: the fail adapter answers [false] and changes nothing, so
    no continuation is given to the runner, no handler is called and
    the map of pending requests is as before. *)
Theorem default_policy_swallows_handled st requestId error :
  isDefaultHandledError error = true →
  let r := RPCFailHandler_call isDefaultHandledError isFloodError Simple
             requestId error st in
  r = (false, st)
  ∧ runnerQueue (snd r) = runnerQueue st
  ∧ invoked (snd r) = invoked st
  ∧ _requests (snd r) = _requests st.
Proof.
  intros Hhandled r.
  assert (Hr : r = (false, st)).
  { unfold r, RPCFailHandler_call. simpl. by rewrite Hhandled. }
  by rewrite Hr.
Qed.

(** C6. [senderRequestDone] on a registered id calls that entry's
    [done] exactly once, with the id and the bytes given, and removes
    the id; on an id that is not in the map, [senderRequestDone] and
    [senderRequestFail] change nothing at all. *)
Theorem complete_registered_or_absent st requestId result :
  (∀ handlers,
     _requests st !! requestId = Some handlers →
     let st' := senderRequestDone rpcClientError requestId result st in
     filter (λ i, is_done i = true) (since st st')
     = [DoneInvoked handlers requestId result]
     ∧ _requests st' !! requestId = None
     ∧ _requests st' = delete requestId (_requests st))
  ∧ (_requests st !! requestId = None →
     senderRequestDone rpcClientError requestId result st = st
     ∧ ∀ error, senderRequestFail requestId error st = st).
Proof.
  split.
  - intros h Hm st'. split; [|split].
    + unfold st'. rewrite (since_app _ _ _ (senderRequestDone_invoked _ _ _ _ Hm)).
      by destruct (done h requestId result).
    + unfold st'. rewrite senderRequestDone_requests. apply lookup_delete_eq.
    + apply senderRequestDone_requests.
  - intros Hm. split.
    + by apply senderRequestDone_absent.
    + intros e. by apply senderRequestFail_absent.
Qed.

(** C7. [send] takes the next id from the generator, has the id in the
    map and the hand-off closure queued for the main thread (not yet
    run) when it returns that id; when every pending id came from the
    generator, the id is new to the map and the entry stored under it is
    the builder's pair. *)
Theorem send_registers_before_returning st b :
  let requestId := fst (send b st) in
  let st' := snd (send b st) in
  requestId = fst (GetNextRequestId st)
  ∧ lastRequestId st < requestId
  ∧ is_Some (_requests st' !! requestId)
  ∧ mainQueue st' =
      mainQueue st ++
      [SendSerialized requestId (_serialized b)
         {| onDone := tt; onFail := _failSkipPolicy b |}
         (_dcId b) (_canWait b) (_afterRequestId b)]
  ∧ instanceCalls st' = instanceCalls st
  ∧ invoked st' = invoked st
  ∧ (ids_issued st →
     _requests st !! requestId = None
     ∧ _requests st' = <[requestId := _handlers b]> (_requests st)
     ∧ _requests st' !! requestId = Some (_handlers b)
     ∧ ids_issued st').
Proof.
  simpl. split; [done|]. split; [lia|]. split; [apply emplace_lookup|].
  do 3 (split; [done|]). intros Hissued.
  assert (Hnew : _requests st !! (lastRequestId st + 1) = None).
  { destruct (_requests st !! (lastRequestId st + 1)) eqn:Hk; [|done].
    specialize (Hissued _ (mk_is_Some _ _ Hk)). lia. }
  split; [done|]. split; [|split].
  - unfold flat_map.emplace. by rewrite Hnew.
  - unfold flat_map.emplace. rewrite Hnew. apply lookup_insert_eq.
  - apply (ids_issued_send st b Hissued).
Qed.

(** C8. [senderRequestCancel] erases the id's entry, calls no handler,
    leaves every other entry as it was and queues one closure for the
    main thread that asks the instance to cancel that id; when the id
    is not in the map, queueing that closure is all it does. *)
Theorem cancel_detaches_and_notifies st requestId :
  let st' := senderRequestCancel requestId st in
  _requests st' = delete requestId (_requests st)
  ∧ (∀ other, other ≠ requestId → _requests st' !! other = _requests st !! other)
  ∧ invoked st' = invoked st
  ∧ runnerQueue st' = runnerQueue st
  ∧ instanceCalls st' = instanceCalls st
  ∧ mainQueue st' = mainQueue st ++ [CancelOne requestId]
  ∧ (∀ w, mainInstance w = true →
       instanceCalls (run_method (CancelOne requestId) w)
       = instanceCalls w ++ [cancel requestId])
  ∧ (_requests st !! requestId = None →
     st' = with_instance (CancelOne requestId) st).
Proof.
  simpl. unfold flat_map.erase. repeat split; try done.
  - intros other Hne. by apply lookup_delete_ne.
  - intros w Hw. unfold run_method. by rewrite Hw.
  - intros Hm. unfold senderRequestCancel, senderRequestDetach, flat_map.erase.
    by rewrite delete_id, set_requests_same.
Qed.

(** C10. [senderRequestRegister] with an id that is already in the map
    changes nothing: the pair stored first stays, the pair supplied is
    neither stored nor called. *)
Theorem register_existing_id_keeps_original st requestId original supplied :
  _requests st !! requestId = Some original →
  senderRequestRegister requestId supplied st = st
  ∧ _requests (senderRequestRegister requestId supplied st) !! requestId
    = Some original
  ∧ invoked (senderRequestRegister requestId supplied st) = invoked st.
Proof.
  intros Hm.
  assert (Hsame : senderRequestRegister requestId supplied st = st).
  { unfold senderRequestRegister, flat_map.emplace. rewrite Hm.
    apply set_requests_same. }
  by rewrite Hsame.
Qed.

(** ** Further properties of the sender *)

Lemma send_fresh st b :
  ids_issued st →
  _requests st !! (lastRequestId st + 1) = None
  ∧ _requests (snd (send b st))
    = <[lastRequestId st + 1 := _handlers b]> (_requests st).
Proof.
  intros Hissued.
  assert (Hnew : _requests st !! (lastRequestId st + 1) = None).
  { destruct (_requests st !! (lastRequestId st + 1)) eqn:Hk; [|done].
    specialize (Hissued _ (mk_is_Some _ _ Hk)). lia. }
  split; [done|]. simpl. unfold flat_map.emplace. by rewrite Hnew.
Qed.

Lemma run_queued_continuation st k :
  step isDefaultHandledError isFloodError rpcClientError make_vector
    (RunContinuation (length (runnerQueue st))) (_runner k st)
  = run_continuation rpcClientError k st.
Proof.
  simpl. rewrite list_lookup_middle by done.
  rewrite delete_middle, app_nil_r.
  replace (set_runnerQueue (runnerQueue st) (_runner k st)) with st; [done|].
  by destruct st.
Qed.

(** X1. A response to a request that was sent reaches the [done] handler of
    the builder, once, with the id and the copied bytes, and afterwards
    the map and the runner's queue are as they were before [send]. *)
Theorem send_then_response_reaches_done st b response :
  ids_issued st →
  alive st = true →
  let requestId := fst (send b st) in
  let result := make_vector response in
  let st1 := snd (send b st) in
  let st2 :=
    step isDefaultHandledError isFloodError rpcClientError make_vector
      (DeliverDone requestId response) st1 in
  let st3 :=
    step isDefaultHandledError isFloodError rpcClientError make_vector
      (RunContinuation (length (runnerQueue st))) st2 in
  invoked st3
  = invoked st ++
    DoneInvoked (_handlers b) requestId result ::
    match done (_handlers b) requestId result with
    | None => []
    | Some what =>
        [FailInvoked (_handlers b) requestId
           (rpcClientError "RESPONSE_PARSE_FAILED"
              (String.append "exception text: " what))]
    end
  ∧ _requests st3 = _requests st
  ∧ runnerQueue st3 = runnerQueue st.
Proof.
  intros Hissued Halive requestId result st1 st2 st3.
  destruct (send_fresh st b Hissued) as [Hnew Hreg].
  assert (Hst3 : st3 = run_continuation rpcClientError
                         (DoneContinuation requestId result) st1).
  { unfold st3, st2. simpl step at 2. unfold RPCDoneHandler_call.
    apply (run_queued_continuation st1). }
  assert (Hlook : _requests st1 !! requestId = Some (_handlers b)).
  { unfold st1. rewrite Hreg. apply lookup_insert_eq. }
  assert (Halive1 : alive st1 = true) by done.
  rewrite Hst3. unfold run_continuation. rewrite Halive1. split; [|split].
  - by rewrite (senderRequestDone_invoked _ _ _ _ Hlook).
  - rewrite senderRequestDone_requests. unfold st1. rewrite Hreg.
    by apply delete_insert_id.
  - unfold senderRequestDone, flat_map.take. rewrite Hlook.
    by destruct (done (_handlers b) requestId result).
Qed.

(** X2. The fail adapter forwards every error that is not default-handled,
    whatever the policy; under [HandleFlood] it swallows a default-handled
    error that is not a flood error; and its answer tells which of the
    two happened: [false] with nothing changed, or [true] with exactly
    one continuation given to the runner. *)
Theorem fail_adapter_forwards_or_swallows st policy requestId error :
  let r := RPCFailHandler_call isDefaultHandledError isFloodError policy
             requestId error st in
  (isDefaultHandledError error = false →
   r = (true, _runner (FailContinuation requestId error) st))
  ∧ (policy = HandleFlood →
     isDefaultHandledError error = true →
     isFloodError error = false →
     r = (false, st))
  ∧ (r = (false, st)
     ∨ r = (true, _runner (FailContinuation requestId error) st)).
Proof.
  unfold RPCFailHandler_call.
  destruct policy, (isDefaultHandledError error) eqn:Hh,
    (isFloodError error) eqn:Hf; simpl; repeat split; try discriminate; auto.
Qed.

(** X3. A continuation already given to the runner when the caller cancels
    or detaches its id calls no handler when it runs later. *)
Theorem cancel_drops_queued_continuation st k (detach_only : bool) :
  let requestId := continuation_id k in
  let st1 := _runner k st in
  let st2 :=
    if detach_only then senderRequestDetach requestId st1
    else senderRequestCancel requestId st1 in
  let st3 :=
    step isDefaultHandledError isFloodError rpcClientError make_vector
      (RunContinuation (length (runnerQueue st))) st2 in
  invoked st3 = invoked st
  ∧ runnerQueue st3 = runnerQueue st
  ∧ _requests st3 = delete requestId (_requests st).
Proof.
  intros requestId st1 st2 st3.
  set (m := if detach_only then mainQueue st
            else mainQueue st ++ [CancelOne requestId]).
  set (st0 := set_mainQueue m
                (set_requests (delete requestId (_requests st)) st)).
  assert (Hst2 : st2 = _runner k st0).
  { unfold st2, st0, m, st1. by destruct detach_only. }
  assert (Hst3 : st3 = run_continuation rpcClientError k st0).
  { unfold st3. rewrite Hst2. apply (run_queued_continuation st0). }
  assert (Hgone : _requests st0 !! requestId = None).
  { unfold st0. simpl. apply lookup_delete_eq. }
  rewrite Hst3. unfold run_continuation. destruct (alive st0); [|done].
  destruct k as [r moved|r e].
  - by rewrite (senderRequestDone_absent st0 r moved Hgone).
  - by rewrite (senderRequestFail_absent st0 r e Hgone).
Qed.

Lemma apply_op_empty st op :
  _requests st = ∅ →
  _requests (apply_op rpcClientError op st) = ∅
  ∧ invoked (apply_op rpcClientError op st) = invoked st.
Proof.
  intros Hempty.
  assert (Hnone : ∀ r, _requests st !! r = None).
  { intros r. by rewrite Hempty, lookup_empty. }
  destruct op as [r res|r e|r|r]; simpl.
  - by rewrite (senderRequestDone_absent _ _ _ (Hnone r)).
  - by rewrite (senderRequestFail_absent _ _ _ (Hnone r)).
  - unfold flat_map.erase. by rewrite Hempty, delete_empty.
  - unfold flat_map.erase. by rewrite Hempty, delete_empty.
Qed.

Lemma step_empty ev st :
  _requests st = ∅ →
  _requests (step isDefaultHandledError isFloodError rpcClientError make_vector ev st)
  = ∅
  ∧ invoked (step isDefaultHandledError isFloodError rpcClientError make_vector ev st)
    = invoked st.
Proof.
  intros Hempty. destruct ev as [r resp|policy r e|n| |present]; simpl.
  - done.
  - unfold RPCFailHandler_call.
    destruct policy; simpl;
      destruct (isDefaultHandledError e), (isFloodError e); done.
  - destruct (runnerQueue st !! n) as [k|]; [|done].
    unfold run_continuation. simpl. destruct (alive st); [|done].
    destruct k as [r moved|r e].
    + by destruct (apply_op_empty
                     (set_runnerQueue (delete n (runnerQueue st)) st)
                     (OpComplete r moved) Hempty).
    + by destruct (apply_op_empty
                     (set_runnerQueue (delete n (runnerQueue st)) st)
                     (OpFail r e) Hempty).
  - destruct (mainQueue st) as [|method rest]; [done|].
    destruct (run_method_quiet method (set_mainQueue rest st))
      as (_ & Hinv & Hreq & _).
    by rewrite Hinv, Hreq.
  - done.
Qed.

(** X4. [senderRequestCancelAll] calls no handler and leaves the sender
    alive with an empty map: whatever is completed, failed, cancelled,
    detached or delivered after it, for answers to the forgotten
    requests included, no handler is called. *)
Theorem cancelAll_forgets_every_handler st ops evs :
  let st' := senderRequestCancelAll st in
  invoked st' = invoked st
  ∧ _requests st' = ∅
  ∧ alive st' = alive st
  ∧ runnerQueue st' = runnerQueue st
  ∧ invoked (run_ops rpcClientError ops st') = invoked st
  ∧ invoked
      (run isDefaultHandledError isFloodError rpcClientError make_vector evs st')
    = invoked st.
Proof.
  intros st'. do 4 (split; [done|]).
  assert (Hops : ∀ ops w, _requests w = ∅ →
            invoked (run_ops rpcClientError ops w) = invoked w).
  { clear. intros ops. induction ops as [|op ops IH]; intros w Hw; [done|].
    destruct (apply_op_empty w op Hw) as [Hw1 Hinv1].
    rewrite run_ops_cons, (IH _ Hw1). done. }
  assert (Hevs : ∀ evs w, _requests w = ∅ →
            invoked (run isDefaultHandledError isFloodError rpcClientError
                       make_vector evs w) = invoked w).
  { clear. intros evs. induction evs as [|ev evs IH]; intros w Hw; [done|].
    destruct (step_empty ev w Hw) as [Hw1 Hinv1].
    unfold run in *. simpl. by rewrite (IH _ Hw1). }
  split; [by rewrite (Hops ops st') | by rewrite (Hevs evs st')].
Qed.

(** ** Hand-off to the instance *)

Lemma cancel_each_mainQueue w (ids : list Z) :
  mainQueue (foldl (λ st requestId, instance_call (cancel requestId) st) w ids)
  = mainQueue w.
Proof.
  revert w. induction ids as [|requestId ids IH]; intros w; [done|].
  simpl. by rewrite IH.
Qed.

Lemma run_method_calls method w requestId :
  mainQueue (run_method method w) = mainQueue w
  ∧ ∃ added,
      instanceCalls (run_method method w) = instanceCalls w ++ added
      ∧ (hands_off requestId method = false →
         Forall (λ c, handed_off requestId c = false) added).
Proof.
  unfold run_method. destruct (mainInstance w).
  - destruct method as [r req cb dc ms after|r|ids]; simpl.
    + split; [done|]. eexists. split; [done|]. intros Hr. by repeat constructor.
    + split; [done|]. eexists. split; [done|]. intros _. by repeat constructor.
    + split; [apply cancel_each_mainQueue|].
      destruct (instance_calls_foldl w ids) as [Hcalls _]. eexists.
      split; [exact Hcalls|]. intros _. apply Forall_fmap. by apply Forall_true.
  - split; [done|]. exists []. split; [by rewrite app_nil_r | by constructor].
Qed.

Lemma filter_handed_off requestId (calls added : list InstanceCall) :
  Forall (λ c, handed_off requestId c = false) added →
  filter (λ c, handed_off requestId c = true) (calls ++ added)
  = filter (λ c, handed_off requestId c = true) calls.
Proof.
  intros Hadded. rewrite filter_app.
  replace (filter _ added) with (@nil InstanceCall);
    [by rewrite app_nil_r|].
  induction Hadded as [|c l Hc _ IH]; [done|].
  rewrite filter_cons_False by congruence. done.
Qed.

Lemma step_no_hand_off ev st requestId :
  Forall (λ m, hands_off requestId m = false) (mainQueue st) →
  Forall (λ m, hands_off requestId m = false)
    (mainQueue (step isDefaultHandledError isFloodError rpcClientError
                  make_vector ev st))
  ∧ filter (λ c, handed_off requestId c = true)
      (instanceCalls (step isDefaultHandledError isFloodError rpcClientError
                        make_vector ev st))
    = filter (λ c, handed_off requestId c = true) (instanceCalls st).
Proof.
  intros Hqueue. destruct ev as [r resp|policy r e|n| |present]; simpl.
  - done.
  - unfold RPCFailHandler_call.
    destruct policy; simpl;
      destruct (isDefaultHandledError e), (isFloodError e); done.
  - destruct (runnerQueue st !! n) as [k|]; [|done].
    unfold run_continuation. simpl. destruct (alive st); [|done].
    destruct k as [r moved|r e].
    + unfold senderRequestDone, flat_map.take. simpl.
      destruct (_requests st !! r) as [h|]; [|done].
      by destruct (done h r moved).
    + unfold senderRequestFail, flat_map.take. simpl.
      by destruct (_requests st !! r).
  - destruct (mainQueue st) as [|method rest] eqn:Hq; [by rewrite Hq|].
    apply Forall_cons in Hqueue as [Hmethod Hrest].
    destruct (run_method_calls method (set_mainQueue rest st) requestId)
      as (Hmain & added & Hcalls & Hadded).
    rewrite Hmain, Hcalls. split; [done|].
    apply filter_handed_off. by apply Hadded.
  - done.
Qed.

Lemma run_no_hand_off evs st requestId :
  Forall (λ m, hands_off requestId m = false) (mainQueue st) →
  filter (λ c, handed_off requestId c = true)
    (instanceCalls (run isDefaultHandledError isFloodError rpcClientError
                      make_vector evs st))
  = filter (λ c, handed_off requestId c = true) (instanceCalls st).
Proof.
  revert st. induction evs as [|ev evs IH]; intros st Hqueue; [done|].
  destruct (step_no_hand_off ev st requestId Hqueue) as [Hqueue1 Hcalls1].
  unfold run in *. simpl. by rewrite (IH _ Hqueue1).
Qed.

(** X5. When the closure posted by [send] runs while there is no instance,
    the request is lost for good: the instance is never handed that id,
    not even if it appears later, no handler is called, and the id stays
    in the map. *)
Theorem send_without_instance_is_lost st b evs :
  mainQueue st = [] →
  mainInstance st = false →
  let requestId := fst (send b st) in
  let st1 :=
    step isDefaultHandledError isFloodError rpcClientError make_vector
      RunMain (snd (send b st)) in
  let final :=
    run isDefaultHandledError isFloodError rpcClientError make_vector evs st1 in
  mainQueue st1 = []
  ∧ instanceCalls st1 = instanceCalls st
  ∧ invoked st1 = invoked st
  ∧ is_Some (_requests st1 !! requestId)
  ∧ filter (λ c, handed_off requestId c = true) (instanceCalls final)
    = filter (λ c, handed_off requestId c = true) (instanceCalls st).
Proof.
  intros Hqueue Hinst requestId st1 final.
  assert (Hst1 : st1 = set_mainQueue []
                         (senderRequestRegister requestId (_handlers b)
                            (snd (GetNextRequestId st)))).
  { unfold st1. simpl. rewrite Hqueue. simpl. unfold run_method. simpl.
    by rewrite Hinst. }
  assert (Hq1 : mainQueue st1 = []) by (by rewrite Hst1).
  split; [done|]. split; [by rewrite Hst1|]. split; [by rewrite Hst1|].
  split.
  - rewrite Hst1. simpl. apply emplace_lookup.
  - unfold final. rewrite (run_no_hand_off evs st1 requestId).
    + by rewrite Hst1.
    + rewrite Hq1. constructor.
Qed.

(** X6. What the builder was given by its setters is what the instance is
    handed, together with the id that [send] returned and the payload,
    when the posted closure runs while there is an instance. *)
Theorem builder_settings_reach_instance st b0 dcId ms policy afterId :
  mainQueue st = [] →
  mainInstance st = true →
  let b := setAfter afterId (setFailSkipPolicy policy
             (setCanWait ms (setToDC dcId b0))) in
  let requestId := fst (send b st) in
  let st1 :=
    step isDefaultHandledError isFloodError rpcClientError make_vector
      RunMain (snd (send b st)) in
  instanceCalls st1
  = instanceCalls st ++
    [sendSerialized requestId (_serialized b0)
       {| onDone := tt; onFail := policy |} dcId ms afterId]
  ∧ mainQueue st1 = []
  ∧ _requests st1
    = flat_map.emplace requestId (_handlers b0) (_requests st).
Proof.
  intros Hqueue Hinst b requestId st1. unfold st1. simpl. rewrite Hqueue.
  simpl. unfold run_method. simpl. by rewrite Hinst.
Qed.

(** ** Several sends *)

Lemma send_lastRequestId st b :
  lastRequestId (snd (send b st)) = lastRequestId st + 1.
Proof. done. Qed.

Lemma send_all_cons b bs st :
  send_all (b :: bs) st
  = (fst (send b st) :: fst (send_all bs (snd (send b st))),
     snd (send_all bs (snd (send b st)))).
Proof. simpl. by destruct (send_all bs _). Qed.

(** X7. Builders sent one after the other get consecutive ids, all
    different; each id maps to the handlers of its own builder, entries
    that were there before stay, and none of the registrations is
    skipped by [emplace]. *)
Theorem send_all_registers_each st bs :
  ids_issued st →
  let ids := fst (send_all bs st) in
  let st' := snd (send_all bs st) in
  ids = seqZ (lastRequestId st + 1) (Z.of_nat (length bs))
  ∧ NoDup ids
  ∧ (∀ (k : nat) b,
       bs !! k = Some b →
       _requests st' !! (lastRequestId st + 1 + Z.of_nat k) = Some (_handlers b))
  ∧ (∀ requestId,
       requestId ≤ lastRequestId st →
       _requests st' !! requestId = _requests st !! requestId)
  ∧ lastRequestId st' = lastRequestId st + Z.of_nat (length bs)
  ∧ ids_issued st'.
Proof.
  intros Hissued ids st'.
  assert (Hmain :
    ids = seqZ (lastRequestId st + 1) (Z.of_nat (length bs))
    ∧ (∀ (k : nat) b,
         bs !! k = Some b →
         _requests st' !! (lastRequestId st + 1 + Z.of_nat k) = Some (_handlers b))
    ∧ (∀ requestId,
         requestId ≤ lastRequestId st →
         _requests st' !! requestId = _requests st !! requestId)
    ∧ lastRequestId st' = lastRequestId st + Z.of_nat (length bs)
    ∧ ids_issued st').
  { unfold ids, st'. clear ids st'. revert st Hissued.
    induction bs as [|b bs IH]; intros st Hissued.
    - simpl. repeat split; try done. lia.
    - rewrite send_all_cons. cbn [fst snd].
      destruct (send_fresh st b Hissued) as [Hnew Hreg].
      pose proof (ids_issued_send st b Hissued) as Hissued1.
      destruct (IH _ Hissued1) as (Hids & Hreg' & Hkeep & Hlast & Hiss).
      rewrite send_lastRequestId in Hids, Hreg', Hkeep, Hlast.
      split; [|split; [|split; [|split]]].
      + rewrite Hids. simpl length.
        rewrite (seqZ_cons _ (Z.of_nat (S (length bs)))) by lia.
        f_equal. f_equal; lia.
      + intros k b' Hk. destruct k as [|k]; simpl in Hk.
        * injection Hk as <-.
          rewrite Hkeep by lia. rewrite Hreg.
          replace (lastRequestId st + 1 + Z.of_nat 0) with (lastRequestId st + 1)
            by lia.
          apply lookup_insert_eq.
        * replace (lastRequestId st + 1 + Z.of_nat (S k))
            with (lastRequestId st + 1 + 1 + Z.of_nat k) by lia.
          by apply Hreg'.
      + intros r Hr. rewrite Hkeep by lia. rewrite Hreg.
        apply lookup_insert_ne. lia.
      + rewrite Hlast. simpl length. lia.
      + done. }
  destruct Hmain as (Hids & ? & ? & ? & ?). repeat split; try done.
  rewrite Hids. apply NoDup_seqZ.
Qed.

(** ** Deliveries through the adapters *)

Lemma step_cases ev st requestId :
  let st1 :=
    step isDefaultHandledError isFloodError rpcClientError make_vector ev st in
  ∃ d,
    invoked st1 = invoked st ++ d
    ∧ match _requests st !! requestId with
      | None => _requests st1 !! requestId = None ∧ calls_for requestId d = []
      | Some h =>
          (_requests st1 !! requestId = Some h ∧ calls_for requestId d = [])
          ∨ (_requests st1 !! requestId = None
             ∧ one_dispatch rpcClientError h requestId (calls_for requestId d))
      end.
Proof.
  assert (Hsame : ∀ st1,
    invoked st1 = invoked st → _requests st1 = _requests st →
    ∃ d,
      invoked st1 = invoked st ++ d
      ∧ match _requests st !! requestId with
        | None => _requests st1 !! requestId = None ∧ calls_for requestId d = []
        | Some h =>
            (_requests st1 !! requestId = Some h ∧ calls_for requestId d = [])
            ∨ (_requests st1 !! requestId = None
               ∧ one_dispatch rpcClientError h requestId (calls_for requestId d))
        end).
  { intros st1 Hinv Hreq. exists []. rewrite app_nil_r, Hreq. split; [done|].
    destruct (_requests st !! requestId); [left|]; done. }
  assert (Hop : ∀ op q,
    let st0 := set_runnerQueue q st in
    ∃ d,
      invoked (apply_op rpcClientError op st0) = invoked st ++ d
      ∧ match _requests st !! requestId with
        | None => _requests (apply_op rpcClientError op st0) !! requestId = None
                  ∧ calls_for requestId d = []
        | Some h =>
            (_requests (apply_op rpcClientError op st0) !! requestId = Some h
             ∧ calls_for requestId d = [])
            ∨ (_requests (apply_op rpcClientError op st0) !! requestId = None
               ∧ one_dispatch rpcClientError h requestId (calls_for requestId d))
        end).
  { intros op q st0. exists (since st0 (apply_op rpcClientError op st0)).
    exact (apply_op_cases st0 op requestId). }
  destruct ev as [r resp|policy r e|n| |present]; cbv zeta; simpl step.
  - by apply Hsame.
  - apply Hsame; unfold RPCFailHandler_call;
      destruct policy; simpl;
        destruct (isDefaultHandledError e), (isFloodError e); done.
  - destruct (runnerQueue st !! n) as [k|]; [|by apply Hsame].
    unfold run_continuation. simpl alive.
    destruct (alive st); [|by apply Hsame].
    destruct k as [r moved|r e].
    + apply (Hop (OpComplete r moved)).
    + apply (Hop (OpFail r e)).
  - destruct (mainQueue st) as [|method rest]; [by apply Hsame|].
    destruct (run_method_quiet method (set_mainQueue rest st))
      as (_ & Hinv & Hreq & _).
    by apply Hsame.
  - by apply Hsame.
Qed.

(** X8. Whatever the instance delivers and in whatever order the queued
    continuations run (answers delivered twice, a response and an error
    for one id), the pair of an id receives one delivery at most, and an
    id that is not in the map receives none. *)
Theorem deliveries_dispatch_at_most_once st evs requestId :
  let final :=
    run isDefaultHandledError isFloodError rpcClientError make_vector evs st in
  match _requests st !! requestId with
  | None =>
      calls_for requestId (since st final) = []
      ∧ _requests final !! requestId = None
  | Some handlers =>
      one_dispatch rpcClientError handlers requestId
        (calls_for requestId (since st final))
  end.
Proof.
  cbv zeta.
  assert (Hrun : ∀ evs st,
    ∃ d,
      invoked (run isDefaultHandledError isFloodError rpcClientError
                 make_vector evs st) = invoked st ++ d
      ∧ match _requests st !! requestId with
        | None =>
            calls_for requestId d = []
            ∧ _requests (run isDefaultHandledError isFloodError rpcClientError
                           make_vector evs st) !! requestId = None
        | Some h => one_dispatch rpcClientError h requestId (calls_for requestId d)
        end).
  { clear. intros evs. induction evs as [|ev evs IH]; intros st.
    - exists []. rewrite app_nil_r. split; [done|].
      destruct (_requests st !! requestId) eqn:Hm; [by left|done].
    - destruct (step_cases ev st requestId) as (d1 & Hinv1 & Hc1).
      destruct (IH (step isDefaultHandledError isFloodError rpcClientError
                      make_vector ev st)) as (d2 & Hinv2 & Hc2).
      exists (d1 ++ d2). split.
      { unfold run in *. simpl. rewrite Hinv2, Hinv1. by rewrite app_assoc. }
      rewrite calls_for_app.
      destruct (_requests st !! requestId) as [h|].
      + destruct Hc1 as [[Hm1 ->]|[Hm1 Hone]].
        * rewrite Hm1 in Hc2. done.
        * rewrite Hm1 in Hc2. destruct Hc2 as [-> _]. by rewrite app_nil_r.
      + destruct Hc1 as [Hm1 ->]. rewrite Hm1 in Hc2. done. }
  destruct (Hrun evs st) as (d & Hinv & Hc).
  by rewrite (since_app _ _ _ Hinv).
Qed.

(** X9. An operation on one id leaves all other entries as they were,
    leaves its own id absent, and calls only handlers of the pair that
    was stored under its own id. *)
Theorem operation_touches_only_its_id st op :
  let st1 := apply_op rpcClientError op st in
  (∀ other, other ≠ op_id op → _requests st1 !! other = _requests st !! other)
  ∧ _requests st1 !! op_id op = None
  ∧ Forall
      (λ i, invocation_id i = op_id op
            ∧ match i with
              | DoneInvoked h _ _ | FailInvoked h _ _ =>
                  _requests st !! op_id op = Some h
              end)
      (since st st1).
Proof.
  cbv zeta.
  assert (Hreq : _requests (apply_op rpcClientError op st)
                 = delete (op_id op) (_requests st)).
  { destruct op as [r res|r e|r|r]; simpl.
    - apply senderRequestDone_requests.
    - apply senderRequestFail_requests.
    - done.
    - done. }
  split; [|split].
  - intros other Hne. rewrite Hreq. by apply lookup_delete_ne.
  - rewrite Hreq. apply lookup_delete_eq.
  - assert (Hnil : ∀ st1, invoked st1 = invoked st → since st st1 = []).
    { intros st1 Hst1. apply since_app. by rewrite app_nil_r. }
    destruct op as [r res|r e|r|r]; simpl.
    + destruct (_requests st !! r) as [h|] eqn:Hr.
      * rewrite (since_app _ _ _ (senderRequestDone_invoked st r res h Hr)).
        destruct (done h r res); by repeat constructor.
      * rewrite (senderRequestDone_absent _ _ _ Hr), Hnil by done. constructor.
    + destruct (_requests st !! r) as [h|] eqn:Hr.
      * rewrite (since_app _ _ _ (senderRequestFail_invoked st r e h Hr)).
        by repeat constructor.
      * rewrite (senderRequestFail_absent _ _ _ Hr), Hnil by done. constructor.
    + rewrite Hnil by done. constructor.
    + rewrite Hnil by done. constructor.
Qed.

End Properties.

(** * The definitions at work on the sample instance *)

(** C1. With one request pending (id 1), [senderRequestCancelAll] hands
    the main thread a list of two ids, [0; 1]: the instance is asked to
    cancel twice, once for the value-initialised slot and once for the
    pending id. *)
Theorem cancelAll_one_pending_cancels_twice :
  size (_requests Sample.one_pending) = 1%nat
  ∧ mainQueue (senderRequestCancelAll Sample.one_pending)
    = mainQueue Sample.one_pending ++ [CancelEach [0; 1]]
  ∧ instanceCalls (run_method (CancelEach [0; 1]) Sample.fresh)
    = [cancel 0; cancel 1].
Proof. repeat split; vm_compute; reflexivity. Qed.

(** C2 as stated fails: one [senderRequestDone] on a pending id whose
    [done] throws calls [done] and then [fail] of the same pair, two
    calls in total. *)
Lemma complete_with_throwing_done_calls_pair_twice :
  _requests Sample.two_pending !! 2 = Some Sample.rejecting
  ∧ calls_for 2
      (since Sample.two_pending
         (run_ops Sample.rpcClientError [OpComplete 2 Sample.OK]
            Sample.two_pending))
    = [DoneInvoked Sample.rejecting 2 Sample.OK;
       FailInvoked Sample.rejecting 2
         (Sample.rpcClientError "RESPONSE_PARSE_FAILED"
            "exception text: bad constructor")]
  ∧ ¬ (length
         (calls_for 2
            (since Sample.two_pending
               (run_ops Sample.rpcClientError [OpComplete 2 Sample.OK]
                  Sample.two_pending))) ≤ 1)%nat.
Proof.
  assert (Hcalls :
    calls_for 2
      (since Sample.two_pending
         (run_ops Sample.rpcClientError [OpComplete 2 Sample.OK]
            Sample.two_pending))
    = [DoneInvoked Sample.rejecting 2 Sample.OK;
       FailInvoked Sample.rejecting 2
         (Sample.rpcClientError "RESPONSE_PARSE_FAILED"
            "exception text: bad constructor")])
    by (vm_compute; reflexivity).
  split; [vm_compute; reflexivity|]. split; [exact Hcalls|].
  rewrite Hcalls. simpl. lia.
Qed.

Lemma handlers_dispatched_at_most_once_witness :
  let ops := [OpComplete 2 Sample.OK; OpFail 2 Sample.flood; OpCancel 2;
              OpDetach 1; OpComplete 1 Sample.OK] in
  _requests Sample.two_pending !! 2 = Some Sample.rejecting
  ∧ one_dispatch Sample.rpcClientError Sample.rejecting 2
      (calls_for 2
         (since Sample.two_pending
            (run_ops Sample.rpcClientError ops Sample.two_pending)))
  ∧ (length (filter (λ calls, touches 2 calls = true)
               (trace Sample.rpcClientError ops Sample.two_pending)) ≤ 1)%nat.
Proof.
  intros ops.
  destruct (handlers_dispatched_at_most_once Sample.rpcClientError
              Sample.two_pending ops 2) as (Hcount & _ & _ & Hone).
  assert (Hm : _requests Sample.two_pending !! 2 = Some Sample.rejecting)
    by (vm_compute; reflexivity).
  split; [exact Hm|]. split; [exact (Hone _ Hm)|exact Hcount].
Defined.

Lemma complete_parse_failure_redirected_witness :
  _requests Sample.two_pending !! 2 = Some Sample.rejecting
  ∧ done Sample.rejecting 2 Sample.OK = Some "bad constructor"%string
  ∧ invoked (senderRequestDone Sample.rpcClientError 2 Sample.OK Sample.two_pending)
    = invoked Sample.two_pending ++
      [DoneInvoked Sample.rejecting 2 Sample.OK;
       FailInvoked Sample.rejecting 2
         (Sample.rpcClientError "RESPONSE_PARSE_FAILED"
            "exception text: bad constructor")].
Proof.
  assert (Hm : _requests Sample.two_pending !! 2 = Some Sample.rejecting)
    by (vm_compute; reflexivity).
  assert (Hthrow : done Sample.rejecting 2 Sample.OK = Some "bad constructor"%string)
    by reflexivity.
  split; [exact Hm|]. split; [exact Hthrow|].
  exact (proj1 (complete_parse_failure_redirected Sample.rpcClientError
                  Sample.two_pending 2 Sample.OK Sample.rejecting
                  "bad constructor" Hm Hthrow)).
Defined.

Lemma flood_policy_escalates_flood_witness :
  Sample.isDefaultHandledError Sample.flood = true
  ∧ Sample.isFloodError Sample.flood = true
  ∧ RPCFailHandler_call Sample.isDefaultHandledError Sample.isFloodError
      HandleFlood 1 Sample.flood Sample.one_pending
    = (true, _runner (FailContinuation 1 Sample.flood) Sample.one_pending).
Proof.
  assert (Hhandled : Sample.isDefaultHandledError Sample.flood = true)
    by reflexivity.
  assert (Hflood : Sample.isFloodError Sample.flood = true) by reflexivity.
  split; [exact Hhandled|]. split; [exact Hflood|].
  exact (proj1 (flood_policy_escalates_flood Sample.isDefaultHandledError
                  Sample.isFloodError Sample.rpcClientError
                  Sample.one_pending 1 Sample.flood Hhandled Hflood)).
Defined.

Lemma default_policy_swallows_handled_witness :
  Sample.isDefaultHandledError Sample.internal = true
  ∧ RPCFailHandler_call Sample.isDefaultHandledError Sample.isFloodError
      Simple 1 Sample.internal Sample.one_pending
    = (false, Sample.one_pending).
Proof.
  assert (Hhandled : Sample.isDefaultHandledError Sample.internal = true)
    by reflexivity.
  split; [exact Hhandled|].
  exact (proj1 (default_policy_swallows_handled Sample.isDefaultHandledError
                  Sample.isFloodError Sample.one_pending 1 Sample.internal
                  Hhandled)).
Defined.

Lemma complete_registered_or_absent_witness :
  _requests Sample.one_pending !! 1 = Some Sample.accepting
  ∧ filter (λ i, is_done i = true)
      (since Sample.one_pending
         (senderRequestDone Sample.rpcClientError 1 Sample.OK Sample.one_pending))
    = [DoneInvoked Sample.accepting 1 Sample.OK]
  ∧ _requests Sample.one_pending !! 2 = None
  ∧ senderRequestDone Sample.rpcClientError 2 Sample.OK Sample.one_pending
    = Sample.one_pending.
Proof.
  assert (Hm : _requests Sample.one_pending !! 1 = Some Sample.accepting)
    by (vm_compute; reflexivity).
  assert (Hn : _requests Sample.one_pending !! 2 = None)
    by (vm_compute; reflexivity).
  destruct (complete_registered_or_absent Sample.rpcClientError
              Sample.one_pending 1 Sample.OK) as [Hpresent _].
  destruct (complete_registered_or_absent Sample.rpcClientError
              Sample.one_pending 2 Sample.OK) as [_ Habsent].
  split; [exact Hm|]. split; [exact (proj1 (Hpresent _ Hm))|].
  split; [exact Hn|exact (proj1 (Habsent Hn))].
Defined.

Lemma send_registers_before_returning_witness :
  ids_issued Sample.fresh
  ∧ fst (send (Sample.builder Sample.accepting) Sample.fresh) = 1
  ∧ _requests (snd (send (Sample.builder Sample.accepting) Sample.fresh)) !! 1
    = Some Sample.accepting.
Proof.
  assert (Hissued : ids_issued Sample.fresh).
  { intros k [h Hk]. simpl in Hk. by rewrite lookup_empty in Hk. }
  destruct (send_registers_before_returning Sample.fresh
              (Sample.builder Sample.accepting))
    as (Hid & _ & _ & _ & _ & _ & Hreg).
  split; [exact Hissued|]. split; [exact Hid|].
  exact (proj1 (proj2 (proj2 (Hreg Hissued)))).
Defined.

Lemma cancel_detaches_and_notifies_witness :
  _requests Sample.two_pending !! 7 = None
  ∧ mainInstance Sample.fresh = true
  ∧ senderRequestCancel 7 Sample.two_pending
    = with_instance (CancelOne 7) Sample.two_pending
  ∧ instanceCalls (run_method (CancelOne 7) Sample.fresh)
    = instanceCalls Sample.fresh ++ [cancel 7].
Proof.
  assert (Hn : _requests Sample.two_pending !! 7 = None)
    by (vm_compute; reflexivity).
  assert (Hinst : mainInstance Sample.fresh = true) by reflexivity.
  destruct (cancel_detaches_and_notifies Sample.two_pending 7)
    as (_ & _ & _ & _ & _ & _ & Hcall & Habsent).
  split; [exact Hn|]. split; [exact Hinst|].
  split; [exact (Habsent Hn)|exact (Hcall _ Hinst)].
Defined.

Lemma no_handler_fires_after_destruction_witness :
  let evs := [RunMain; RunMain; RunMain; DeliverDone 1 [79; 75];
              RunContinuation 0; DeliverFail HandleFlood 2 Sample.flood;
              RunContinuation 0] in
  is_Some (_requests Sample.two_pending !! 2)
  ∧ mainInstance Sample.fresh = true
  ∧ invoked (run Sample.isDefaultHandledError Sample.isFloodError
               Sample.rpcClientError Sample.make_vector evs
               (destroy Sample.two_pending))
    = invoked Sample.two_pending
  ∧ ∃ list,
      mainQueue (destroy Sample.two_pending)
      = mainQueue Sample.two_pending ++ [CancelEach list]
      ∧ 2 ∈ list
      ∧ cancel 2 ∈ instanceCalls (run_method (CancelEach list) Sample.fresh).
Proof.
  intros evs.
  assert (Hm : is_Some (_requests Sample.two_pending !! 2))
    by (exists Sample.rejecting; vm_compute; reflexivity).
  assert (Hinst : mainInstance Sample.fresh = true) by reflexivity.
  destruct (no_handler_fires_after_destruction Sample.isDefaultHandledError
              Sample.isFloodError Sample.rpcClientError Sample.make_vector
              Sample.two_pending evs)
    as (_ & _ & _ & (list & Hqueue & Hlist) & _ & Hinv).
  split; [exact Hm|]. split; [exact Hinst|]. split; [exact Hinv|].
  exists list. split; [exact Hqueue|].
  destruct (Hlist 2 Hm) as [Hin Hcall].
  split; [exact Hin|exact (Hcall _ Hinst)].
Defined.

Lemma register_existing_id_keeps_original_witness :
  _requests Sample.one_pending !! 1 = Some Sample.accepting
  ∧ senderRequestRegister 1 Sample.rejecting Sample.one_pending
    = Sample.one_pending.
Proof.
  assert (Hm : _requests Sample.one_pending !! 1 = Some Sample.accepting)
    by (vm_compute; reflexivity).
  split; [exact Hm|].
  exact (proj1 (register_existing_id_keeps_original Sample.one_pending 1
                  Sample.accepting Sample.rejecting Hm)).
Defined.

(** * Properties of the paid-reaction slider and rows *)
Section PaidReactionProperties.
Import PaidReaction PrimFloat.
Context (SafeRound : float → float) (int_of_float64 : float → Z).

(** ** The table *)

Lemma thresholds_cases max :
  thresholds max =
    if max <=? 40 then [(0%float, 1); (1%float, max)]
    else if max <=? 300 then [(0%float, 1); ((1 / 4)%float, 10); (1%float, max)]
    else if max <=? 600 then
      [(0%float, 1); ((1 / 8)%float, 10); ((1 / 2)%float, 100); (1%float, max)]
    else if max <=? 1900 then
      [(0%float, 1); ((1 / 8)%float, 10); ((1 / 3)%float, 100); (1%float, max)]
    else
      [(0%float, 1); ((1 / 8)%float, 10); ((1 / 3)%float, 100);
       ((2 / 3)%float, 1000); (1%float, max)].
Proof.
  unfold thresholds.
  destruct (max <=? 40); [reflexivity|].
  destruct (max <=? 300); [reflexivity|].
  destruct (max <=? 600); [reflexivity|].
  destruct (max <=? 1900); reflexivity.
Qed.

Lemma thresholds_ends max :
  head (thresholds max) = Some (0%float, 1)
  ∧ last (thresholds max) = Some (1%float, max).
Proof.
  rewrite thresholds_cases.
  destruct (max <=? 40); [done|].
  destruct (max <=? 300); [done|].
  destruct (max <=? 600); [done|].
  destruct (max <=? 1900); done.
Qed.

Lemma thresholds_sorted max :
  2 ≤ max →
  Sorted (λ a b, ltb (fst a) (fst b) = true ∧ snd a < snd b) (thresholds max)
  ∧ Forall (λ e, 1 ≤ snd e ≤ max) (thresholds max).
Proof.
  intros Hmax. rewrite thresholds_cases.
  destruct (Z.leb_spec max 40);
    [|destruct (Z.leb_spec max 300);
      [|destruct (Z.leb_spec max 600); [|destruct (Z.leb_spec max 1900)]]];
    (split; [repeat constructor; simpl; lia | repeat constructor; simpl; lia]).
Qed.

Lemma Sorted_adjacent {A} (R : A → A → Prop) before i j after :
  Sorted R (before ++ i :: j :: after) → R i j.
Proof.
  induction before as [|e before IH]; simpl; intros Hs.
  - apply Sorted_inv in Hs as [_ Hhd]. by apply HdRel_inv in Hhd.
  - apply Sorted_inv in Hs as [Hs _]. by apply IH.
Qed.

(** ** The two searches *)

Lemma seek_found value i rest :
  rest ≠ [] →
  snd i ≤ value →
  (∀ e, last (i :: rest) = Some e → value ≤ snd e) →
  ∃ before i' j' after,
    i :: rest = before ++ i' :: j' :: after
    ∧ seek value i rest = Some (i', j')
    ∧ snd i' ≤ value ≤ snd j'
    ∧ (before = [] ∨ snd i' < value).
Proof.
  revert i. induction rest as [|j rest IH]; intros i Hne Hlow Hhigh; [done|].
  simpl. destruct (Z.ltb_spec (snd j) value) as [Hlt|Hge].
  - assert (Hrest : rest ≠ []).
    { intros ->. specialize (Hhigh j eq_refl). lia. }
    destruct (IH j Hrest) as (before & i' & j' & after & Heq & Hseek & Hin & Hor).
    + lia.
    + intros e He. apply Hhigh. rewrite <- He. by destruct rest.
    + exists (i :: before), i', j', after. rewrite Heq. split; [done|].
      split; [done|]. split; [done|]. right.
      destruct Hor as [->|?]; [|done]. simpl in Heq. by injection Heq as <- _.
  - exists [], i, j, rest. repeat split; try done; try lia. by left.
Qed.

Lemma seek_thresholds max v :
  2 ≤ max →
  1 ≤ v ≤ max →
  ∃ first rest before i j after,
    thresholds max = first :: rest
    ∧ first :: rest = before ++ i :: j :: after
    ∧ seek v first rest = Some (i, j)
    ∧ snd i ≤ v ≤ snd j
    ∧ snd i < snd j
    ∧ (v = 1 ∨ snd i < v)
    ∧ 1 ≤ snd i ∧ snd j ≤ max
    ∧ ltb (fst i) (fst j) = true.
Proof.
  intros Hmax Hv.
  destruct (thresholds_ends max) as [Hhead Hlast].
  destruct (thresholds_sorted max Hmax) as [Hsorted Hrange].
  destruct (thresholds max) as [|first rest] eqn:Ht; [done|].
  injection Hhead as ->.
  assert (Hrest : rest ≠ []).
  { intros ->. simpl in Hlast.
    apply (f_equal (λ o, match o with Some e => snd e | None => 0 end)) in Hlast.
    simpl in Hlast. lia. }
  destruct (seek_found v (0%float, 1) rest Hrest)
    as (before & i & j & after & Heq & Hseek & Hin & Hor).
  - simpl. lia.
  - intros e He. rewrite Hlast in He. injection He as <-. simpl. lia.
  - exists (0%float, 1), rest, before, i, j, after.
    rewrite Heq in Hsorted, Hrange.
    destruct (Sorted_adjacent _ _ _ _ _ Hsorted) as [Hkeys Hvalues].
    apply Forall_app in Hrange as [_ Hrange].
    apply Forall_cons in Hrange as [Hi Hrange].
    apply Forall_cons in Hrange as [Hj _].
    do 5 (split; [done|]). split.
    { destruct Hor as [->|?]; [|by right]. simpl in Heq.
      injection Heq as <- _. simpl. lia. }
    split; [lia|]. split; [lia|done].
Qed.

Lemma clamp_range value max : 2 ≤ max → 1 ≤ clamp value 1 max ≤ max.
Proof.
  intros Hmax. unfold clamp. destruct (Z.ltb_spec value 1); [lia|].
  destruct (Z.ltb_spec max value); lia.
Qed.

Lemma valueToRatio_total max value :
  2 ≤ max → ∃ ratio, valueToRatio max (thresholds max) value = Ok ratio.
Proof.
  intros Hmax.
  destruct (seek_thresholds max _ Hmax (clamp_range value max Hmax))
    as (first & rest & _ & i & j & _ & Ht & _ & Hseek & _).
  unfold valueToRatio. rewrite Ht, Hseek. by eexists.
Qed.

Lemma lower_bound_spec key m :
  m = fst (lower_bound key m) ++ snd (lower_bound key m)
  ∧ Forall (λ e, ltb (fst e) key = true) (fst (lower_bound key m))
  ∧ match snd (lower_bound key m) with
    | [] => True
    | j :: _ => ltb (fst j) key = false
    end.
Proof.
  induction m as [|e m IH]; simpl; [by repeat constructor|].
  destruct (ltb (fst e) key) eqn:He.
  - destruct (lower_bound key m) as [before from]. simpl in *.
    destruct IH as (-> & Hall & Hfrom). repeat split; try done.
    by constructor.
  - simpl. by rewrite He.
Qed.

Lemma clamp_ratio_unit ratio :
  ltb 1 (clamp_ratio ratio 0 1) = false.
Proof.
  unfold clamp_ratio. destruct (ltb ratio 0); [reflexivity|].
  destruct (ltb 1 ratio) eqn:Hhigh; [reflexivity|done].
Qed.

Lemma lower_bound_thresholds max r :
  ltb 1 r = false →
  (ltb 0 r = false ∧ fst (lower_bound r (thresholds max)) = [])
  ∨ (ltb 0 r = true
     ∧ ∃ before i j after,
         lower_bound r (thresholds max) = (before ++ [i], j :: after)
         ∧ thresholds max = before ++ i :: j :: after
         ∧ ltb (fst i) r = true
         ∧ ltb (fst j) r = false).
Proof.
  intros Hunit.
  destruct (thresholds_ends max) as [Hhead Hlast].
  destruct (lower_bound_spec r (thresholds max)) as (Hsplit & Hbefore & Hfrom).
  destruct (lower_bound r (thresholds max)) as [before from] eqn:Hlb.
  simpl in Hsplit, Hbefore, Hfrom.
  destruct (ltb 0 r) eqn:Hzero.
  - right. split; [done|].
    destruct before as [|b before _] using rev_ind.
    { simpl in Hsplit. rewrite Hsplit in Hhead.
      destruct from as [|j from]; [done|]. injection Hhead as ->.
      simpl in Hfrom. congruence. }
    apply Forall_app in Hbefore as [_ Hb]. apply Forall_cons in Hb as [Hb _].
    destruct from as [|j from].
    { rewrite app_nil_r in Hsplit. rewrite Hsplit, last_snoc in Hlast.
      injection Hlast as ->. simpl in Hb. congruence. }
    exists before, b, j, from.
    split; [done|]. split; [by rewrite Hsplit, <- app_assoc|]. done.
  - left. split; [done|]. simpl.
    destruct before as [|b before]; [done|].
    rewrite Hsplit in Hhead. injection Hhead as ->.
    apply Forall_cons in Hbefore as [Hb _]. simpl in Hb. congruence.
Qed.

Lemma ratioToValue_total max ratio :
  ∃ value,
    ratioToValue SafeRound int_of_float64 (thresholds max) ratio = Ok value.
Proof.
  unfold ratioToValue.
  destruct (lower_bound_thresholds max _ (clamp_ratio_unit ratio))
    as [[_ Hnil]|(_ & before & i & j & after & Hlb & _)].
  - destruct (lower_bound _ (thresholds max)) as [before from].
    simpl in Hnil. rewrite Hnil. by eexists.
  - rewrite Hlb, last_snoc. by eexists.
Qed.

(** X10. For every [max >= 2] the table of [DiscreterForMax] starts at
    ratio 0 with amount 1, ends at ratio 1 with amount [max], and both
    its ratios and its amounts increase strictly from one entry to the
    next. *)
Theorem thresholds_increase max :
  2 ≤ max →
  head (thresholds max) = Some (0%float, 1)
  ∧ last (thresholds max) = Some (1%float, max)
  ∧ Sorted (λ a b, ltb (fst a) (fst b) = true ∧ snd a < snd b) (thresholds max)
  ∧ (2 ≤ length (thresholds max) ≤ 5)%nat.
Proof.
  intros Hmax. destruct (thresholds_ends max) as [Hhead Hlast].
  destruct (thresholds_sorted max Hmax) as [Hsorted _].
  repeat split; try done; rewrite thresholds_cases;
    destruct (max <=? 40); simpl; try lia;
    destruct (max <=? 300); simpl; try lia;
    destruct (max <=? 600); simpl; try lia;
    destruct (max <=? 1900); simpl; lia.
Qed.

(** X11. For [max >= 2] and any [int] value, the loop of [valueToRatio]
    stops inside the table, at two neighbouring entries whose amounts
    enclose the clamped value and differ, so the quotient it computes
    has operands [0 <= value - i->second <= j->second - i->second] with a
    divisor that is not zero. *)
Theorem valueToRatio_stays_in_table max value :
  2 ≤ max →
  let v := clamp value 1 max in
  ∃ before i j after,
    thresholds max = before ++ i :: j :: after
    ∧ snd i ≤ v ≤ snd j
    ∧ snd i < snd j
    ∧ (v = 1 ∨ snd i < v)
    ∧ 1 ≤ snd i ∧ snd j ≤ max
    ∧ ltb (fst i) (fst j) = true
    ∧ valueToRatio max (thresholds max) value
      = Ok (fst i + (fst j - fst i)
                    * (float64_of_int (v - snd i)
                       / float64_of_int (snd j - snd i)))%float.
Proof.
  intros Hmax v.
  destruct (seek_thresholds max v Hmax (clamp_range value max Hmax))
    as (first & rest & before & i & j & after & Ht & Heq & Hseek & Hfound).
  exists before, i, j, after.
  split; [by rewrite Ht|].
  destruct Hfound as (? & ? & ? & ? & ? & ?).
  do 6 (split; [done|]).
  unfold valueToRatio. fold v. by rewrite Ht, Hseek.
Qed.

(** X12. For any [double], NaN and infinities included, [ratioToValue]
    never reads the table at [end()]: when the clamped ratio is not
    above 0 it answers 1, and otherwise it interpolates between two
    neighbouring entries, the first with a smaller ratio and the second
    with a ratio that is not smaller. *)
Theorem ratioToValue_stays_in_table max ratio :
  let r := clamp_ratio ratio 0 1 in
  (ltb 0 r = false
   ∧ ratioToValue SafeRound int_of_float64 (thresholds max) ratio = Ok 1)
  ∨ (ltb 0 r = true
     ∧ ∃ before i j after,
         thresholds max = before ++ i :: j :: after
         ∧ ltb (fst i) r = true
         ∧ ltb (fst j) r = false
         ∧ ratioToValue SafeRound int_of_float64 (thresholds max) ratio
           = Ok (int_of_float64
                   (SafeRound
                      (float64_of_int (snd i)
                       + float64_of_int (snd j - snd i)
                         * ((r - fst i) / (fst j - fst i)))%float))).
Proof.
  intros r. unfold ratioToValue. fold r.
  destruct (lower_bound_thresholds max r (clamp_ratio_unit ratio))
    as [[Hzero Hnil]|(Hzero & before & i & j & after & Hlb & Ht & Hi & Hj)].
  - left. split; [done|].
    destruct (lower_bound r (thresholds max)) as [before from].
    simpl in Hnil. by rewrite Hnil.
  - right. split; [done|]. exists before, i, j, after.
    do 3 (split; [done|]). by rewrite Hlb, last_snoc.
Qed.

(** X13. Whatever [max] and [chosen] the caller passes, the arguments left by
    the first two lines of [PaidReactionsBox] satisfy [max >= 2] and
    [1 <= chosen <= max] (valid arguments are kept as they are), so the
    [Expects] of [PaidReactionSlider] and of [DiscreterForMax] hold: the
    slider gets its start value, and its adjust callback answers for
    every [double]. *)
Theorem PaidReactionsBox_slider_never_fails max chosen :
  let m := fst (PaidReactionsBox_args max chosen) in
  let c := snd (PaidReactionsBox_args max chosen) in
  2 ≤ m
  ∧ 1 ≤ c ≤ m
  ∧ (2 ≤ max → m = max)
  ∧ (1 ≤ chosen ≤ m → c = chosen)
  ∧ ∃ slider,
      PaidReactionsBox_slider SafeRound int_of_float64 max chosen = Ok slider
      ∧ valueToRatio m (thresholds m) c = Ok (slider_value slider)
      ∧ ∀ ratio, ∃ adjusted, slider_adjust slider ratio = Ok adjusted.
Proof.
  intros m c.
  assert (Hm : 2 ≤ m) by (unfold m; simpl; lia).
  assert (Hc : 1 ≤ c ≤ m).
  { unfold c, m. simpl. unfold clamp.
    destruct (Z.ltb_spec chosen 1); [lia|].
    destruct (Z.ltb_spec (Z.max max 2) chosen); lia. }
  split; [done|]. split; [done|]. split; [unfold m; simpl; lia|]. split.
  { unfold c, m. simpl. unfold clamp. intros Hin.
    destruct (Z.ltb_spec chosen 1); [lia|].
    destruct (Z.ltb_spec (Z.max max 2) chosen); lia. }
  destruct (valueToRatio_total m c Hm) as [start Hstart].
  unfold PaidReactionsBox_slider.
  change (PaidReactionsBox_args max chosen) with (m, c).
  unfold PaidReactionSlider, DiscreterForMax.
  replace (1 <=? c) with true by (symmetry; apply Z.leb_le; lia).
  replace (c <=? m) with true by (symmetry; apply Z.leb_le; lia).
  replace (2 <=? m) with true by (symmetry; apply Z.leb_le; lia).
  simpl. rewrite Hstart. eexists. split; [done|]. split; [done|].
  intros ratio. simpl.
  destruct (ratioToValue_total m ratio) as [value ->].
  apply (valueToRatio_total m value Hm).
Qed.

(** ** Rows *)

Lemma setGeometries_lookup left single height widgets (k : nat) g :
  setGeometries left single height widgets !! k = Some g →
  (k < length widgets)%nat
  ∧ g = {| geo_x := left + Z.of_nat k * single; geo_y := 0;
           geo_w := single; geo_h := height |}.
Proof.
  revert left k. induction widgets as [|w widgets IH]; intros left k; [done|].
  destruct k as [|k]; simpl.
  - intros [= <-]. split; [lia|]. f_equal. lia.
  - intros Hk. destruct (IH _ _ Hk) as [Hlt ->]. split; [lia|]. f_equal. lia.
Qed.

Lemma setGeometries_length left single height widgets :
  length (setGeometries left single height widgets) = length widgets.
Proof.
  revert left. induction widgets as [|w widgets IH]; intros left; [done|].
  simpl. by rewrite IH.
Qed.

(** X14. The row of top reactors shows [min(size, 3)] widgets.  When a
    quarter of the width is not more than the userpic size the handler
    leaves them where they are; otherwise it puts them side by side,
    each a quarter of the width wide, all inside [0, width], with the
    free space split between left and right so that the right part is
    equal to the left one or one pixel more. *)
Theorem top_reactors_fit_in_row userpic height size width widgets :
  0 ≤ userpic →
  Z.of_nat (length widgets) = topCount size →
  let n := topCount size in
  let single := width ÷ 4 in
  let left := (width - single * n) ÷ 2 in
  let placed := FillTopReactors_layout userpic height n width widgets in
  n ≤ 3
  ∧ (single ≤ userpic → placed = widgets)
  ∧ (userpic < single →
     length placed = length widgets
     ∧ 0 ≤ left
     ∧ (width - (left + single * n) = left
        ∨ width - (left + single * n) = left + 1)
     ∧ ∀ (k : nat) g,
         placed !! k = Some g →
         geo_x g = left + Z.of_nat k * single
         ∧ geo_y g = 0 ∧ geo_w g = single ∧ geo_h g = height
         ∧ 0 ≤ geo_x g ∧ geo_x g + geo_w g ≤ width).
Proof.
  intros Huserpic Hcount n single left placed.
  assert (Hn : 0 ≤ n ≤ 3) by (unfold n, topCount, kMaxTopPaidShown in *; lia).
  split; [lia|]. split.
  - intros Hsmall. unfold placed, FillTopReactors_layout. fold single.
    by replace (single <=? userpic) with true by (symmetry; apply Z.leb_le; lia).
  - intros Hbig. unfold placed, FillTopReactors_layout. fold single.
    replace (single <=? userpic) with false by (symmetry; apply Z.leb_gt; lia).
    fold left.
    assert (Hwidth : 0 ≤ width).
    { destruct (Z.le_gt_cases 0 width) as [|Hneg]; [done|].
      assert (single ≤ 0); [|lia]. unfold single.
      apply Z.opp_le_mono. rewrite <- Z.quot_opp_l by lia.
      apply Z.quot_pos; lia. }
    assert (Hsingle : single = width / 4)
      by (unfold single; apply Z.quot_div_nonneg; lia).
    assert (Hfour : 4 * single ≤ width < 4 * single + 4)
      by (rewrite Hsingle; pose proof (Z.div_mod width 4);
          pose proof (Z.mod_pos_bound width 4); lia).
    assert (Hrem : 0 ≤ width - single * n) by nia.
    assert (Hleft : left = (width - single * n) / 2)
      by (unfold left; apply Z.quot_div_nonneg; lia).
    assert (Htwo : 2 * left ≤ width - single * n < 2 * left + 2)
      by (rewrite Hleft; pose proof (Z.div_mod (width - single * n) 2);
          pose proof (Z.mod_pos_bound (width - single * n) 2); lia).
    split; [apply setGeometries_length|]. split; [lia|]. split; [lia|].
    intros k g Hk. destruct (setGeometries_lookup _ _ _ _ _ _ Hk) as [Hlt ->].
    simpl. repeat split; try done; nia.
Qed.

Lemma int32_in_range z :
  -2147483648 ≤ z < 2147483648 → int32 z = z.
Proof.
  intros Hz. unfold int32.
  rewrite Z.mod_small by lia. lia.
Qed.

(** X15. For a label height that is a non-negative [int] and a font
    height below 2^30, no step of the handler leaves the [int] range;
    the wrap is never lower than the label, the label has the same
    space above and below, a label of two text lines or more gets no
    extra space, and a lower one is brought to two text lines, or to one
    pixel less when the difference is odd. *)
Theorem label_is_centred fontHeight height :
  0 ≤ fontHeight < 1073741824 →
  0 ≤ height < 2147483648 →
  let wrap := fst (label_layout fontHeight height) in
  let top := snd (label_layout fontHeight height) in
  0 ≤ top
  ∧ wrap = top + height + top
  ∧ height ≤ wrap
  ∧ (2 * fontHeight ≤ height → top = 0 ∧ wrap = height)
  ∧ (height < 2 * fontHeight →
     2 * fontHeight - 1 ≤ wrap ≤ 2 * fontHeight).
Proof.
  intros Hfont Hheight. unfold label_layout. cbn [fst snd].
  rewrite (int32_in_range (2 * fontHeight)) by lia.
  rewrite (int32_in_range (2 * fontHeight - height)) by lia.
  set (d := 2 * fontHeight - height).
  assert (Hq : 0 ≤ d → 2 * (d ÷ 2) ≤ d < 2 * (d ÷ 2) + 2).
  { intros Hd. rewrite Z.quot_div_nonneg by lia.
    pose proof (Z.div_mod d 2). pose proof (Z.mod_pos_bound d 2). lia. }
  assert (Hneg : d ≤ 0 → d ÷ 2 ≤ 0).
  { intros Hd. apply Z.opp_le_mono. rewrite <- Z.quot_opp_l by lia.
    apply Z.quot_pos; lia. }
  assert (Hskip : 0 ≤ Z.max (d ÷ 2) 0 ∧ 2 * Z.max (d ÷ 2) 0 + height
                    ≤ Z.max (2 * fontHeight) height).
  { destruct (Z.le_gt_cases 0 d) as [Hd|Hd]; [specialize (Hq Hd)|]; lia. }
  rewrite (int32_in_range (2 * Z.max (d ÷ 2) 0)) by lia.
  rewrite (int32_in_range (2 * Z.max (d ÷ 2) 0 + height)) by lia.
  repeat split; try lia.
Qed.

End PaidReactionProperties.

(** * The further properties at work on the sample instance *)

Lemma send_then_response_reaches_done_witness :
  ids_issued Sample.fresh
  ∧ alive Sample.fresh = true
  ∧ invoked
      (run Sample.isDefaultHandledError Sample.isFloodError
         Sample.rpcClientError Sample.make_vector
         [DeliverDone 1 [79; 75]; RunContinuation 0]
         (snd (send (Sample.builder Sample.accepting) Sample.fresh)))
    = [DoneInvoked Sample.accepting 1 Sample.OK].
Proof.
  assert (Hissued : ids_issued Sample.fresh).
  { intros k [h Hk]. simpl in Hk. by rewrite lookup_empty in Hk. }
  assert (Halive : alive Sample.fresh = true) by reflexivity.
  split; [exact Hissued|]. split; [exact Halive|].
  exact (proj1 (send_then_response_reaches_done Sample.isDefaultHandledError
                  Sample.isFloodError Sample.rpcClientError Sample.make_vector
                  Sample.fresh (Sample.builder Sample.accepting) [79; 75]
                  Hissued Halive)).
Defined.

Lemma fail_adapter_forwards_or_swallows_witness :
  Sample.isDefaultHandledError Sample.internal = true
  ∧ Sample.isFloodError Sample.internal = false
  ∧ RPCFailHandler_call Sample.isDefaultHandledError Sample.isFloodError
      HandleFlood 1 Sample.internal Sample.one_pending
    = (false, Sample.one_pending).
Proof.
  assert (Hh : Sample.isDefaultHandledError Sample.internal = true)
    by reflexivity.
  assert (Hf : Sample.isFloodError Sample.internal = false) by reflexivity.
  split; [exact Hh|]. split; [exact Hf|].
  exact (proj1 (proj2 (fail_adapter_forwards_or_swallows
                         Sample.isDefaultHandledError Sample.isFloodError
                         Sample.one_pending HandleFlood 1 Sample.internal))
           eq_refl Hh Hf).
Defined.

Lemma send_without_instance_is_lost_witness :
  let st := set_mainInstance false Sample.fresh in
  mainQueue st = []
  ∧ mainInstance st = false
  ∧ filter (λ c, handed_off 1 c = true)
      (instanceCalls
         (run Sample.isDefaultHandledError Sample.isFloodError
            Sample.rpcClientError Sample.make_vector
            [SetInstance true; RunMain]
            (step Sample.isDefaultHandledError Sample.isFloodError
               Sample.rpcClientError Sample.make_vector RunMain
               (snd (send (Sample.builder Sample.accepting) st)))))
    = filter (λ c, handed_off 1 c = true) (instanceCalls st).
Proof.
  intros st.
  assert (Hq : mainQueue st = []) by reflexivity.
  assert (Hi : mainInstance st = false) by reflexivity.
  split; [exact Hq|]. split; [exact Hi|].
  destruct (send_without_instance_is_lost Sample.isDefaultHandledError
              Sample.isFloodError Sample.rpcClientError Sample.make_vector
              st (Sample.builder Sample.accepting)
              [SetInstance true; RunMain] Hq Hi)
    as (_ & _ & _ & _ & Hlost).
  exact Hlost.
Defined.

Lemma builder_settings_reach_instance_witness :
  mainQueue Sample.fresh = []
  ∧ mainInstance Sample.fresh = true
  ∧ instanceCalls
      (step Sample.isDefaultHandledError Sample.isFloodError
         Sample.rpcClientError Sample.make_vector RunMain
         (snd (send
                 (setAfter 4 (setFailSkipPolicy HandleFlood
                    (setCanWait 100 (setToDC 2 (Sample.builder Sample.accepting)))))
                 Sample.fresh)))
    = instanceCalls Sample.fresh ++
      [sendSerialized 1 [1; 2] {| onDone := tt; onFail := HandleFlood |} 2 100 4].
Proof.
  assert (Hq : mainQueue Sample.fresh = []) by reflexivity.
  assert (Hi : mainInstance Sample.fresh = true) by reflexivity.
  split; [exact Hq|]. split; [exact Hi|].
  exact (proj1 (builder_settings_reach_instance Sample.isDefaultHandledError
                  Sample.isFloodError Sample.rpcClientError Sample.make_vector
                  Sample.fresh (Sample.builder Sample.accepting)
                  2 100 HandleFlood 4 Hq Hi)).
Defined.

Lemma send_all_registers_each_witness :
  let bs := [Sample.builder Sample.accepting; Sample.builder Sample.rejecting] in
  ids_issued Sample.fresh
  ∧ fst (send_all bs Sample.fresh) = [1; 2]
  ∧ _requests (snd (send_all bs Sample.fresh)) !! 2 = Some Sample.rejecting.
Proof.
  intros bs.
  assert (Hissued : ids_issued Sample.fresh).
  { intros k [h Hk]. simpl in Hk. by rewrite lookup_empty in Hk. }
  destruct (send_all_registers_each Sample.fresh bs Hissued)
    as (Hids & _ & Hreg & _).
  split; [exact Hissued|]. split; [exact Hids|].
  exact (Hreg 1%nat (Sample.builder Sample.rejecting) eq_refl).
Defined.

Lemma operation_touches_only_its_id_witness :
  1 ≠ op_id (OpComplete (RPCError := Sample.RPCError) 2 Sample.OK)
  ∧ _requests
      (apply_op Sample.rpcClientError (OpComplete 2 Sample.OK) Sample.two_pending)
      !! 1
    = _requests Sample.two_pending !! 1.
Proof.
  assert (Hne : 1 ≠ op_id (OpComplete (RPCError := Sample.RPCError) 2 Sample.OK))
    by (simpl; lia).
  split; [exact Hne|].
  exact (proj1 (operation_touches_only_its_id Sample.rpcClientError
                  Sample.two_pending (OpComplete 2 Sample.OK)) 1 Hne).
Defined.

Section PaidReactionWitnesses.
Import PaidReaction PrimFloat.

Lemma thresholds_increase_witness :
  2 ≤ 5000
  ∧ head (thresholds 5000) = Some (0%float, 1)
  ∧ last (thresholds 5000) = Some (1%float, 5000)
  ∧ Sorted (λ a b, ltb (fst a) (fst b) = true ∧ snd a < snd b) (thresholds 5000)
  ∧ (2 ≤ length (thresholds 5000) ≤ 5)%nat.
Proof.
  assert (Hmax : 2 ≤ 5000) by lia.
  split; [exact Hmax|]. exact (thresholds_increase 5000 Hmax).
Defined.

Lemma valueToRatio_stays_in_table_witness :
  2 ≤ 5000
  ∧ ∃ before i j after,
      thresholds 5000 = before ++ i :: j :: after
      ∧ snd i ≤ clamp 550 1 5000 ≤ snd j
      ∧ snd i < snd j
      ∧ (clamp 550 1 5000 = 1 ∨ snd i < clamp 550 1 5000)
      ∧ 1 ≤ snd i ∧ snd j ≤ 5000
      ∧ ltb (fst i) (fst j) = true
      ∧ valueToRatio 5000 (thresholds 5000) 550
        = Ok (fst i + (fst j - fst i)
                      * (float64_of_int (clamp 550 1 5000 - snd i)
                         / float64_of_int (snd j - snd i)))%float.
Proof.
  assert (Hmax : 2 ≤ 5000) by lia.
  split; [exact Hmax|]. exact (valueToRatio_stays_in_table 5000 550 Hmax).
Defined.

Lemma PaidReactionsBox_slider_never_fails_witness :
  2 ≤ 2500
  ∧ 1 ≤ 50 ≤ fst (PaidReactionsBox_args 2500 50)
  ∧ PaidReactionsBox_args 2500 50 = (2500, 50).
Proof.
  assert (Hmax : 2 ≤ 2500) by lia.
  assert (Hin : 1 ≤ 50 ≤ fst (PaidReactionsBox_args 2500 50))
    by (vm_compute; split; discriminate).
  destruct (PaidReactionsBox_slider_never_fails (λ x, x) (λ _, 1) 2500 50)
    as (_ & _ & Hm & Hc & _).
  split; [exact Hmax|]. split; [exact Hin|].
  rewrite (surjective_pairing (PaidReactionsBox_args 2500 50)).
  by rewrite (Hm Hmax), (Hc Hin).
Defined.

Lemma top_reactors_fit_in_row_witness :
  let blank := {| geo_x := 0; geo_y := 0; geo_w := 0; geo_h := 0 |} in
  0 ≤ 40
  ∧ Z.of_nat (length [blank; blank; blank]) = topCount 5
  ∧ 40 < 403 ÷ 4
  ∧ ∀ (k : nat) g,
      FillTopReactors_layout 40 60 (topCount 5) 403 [blank; blank; blank] !! k
      = Some g →
      geo_x g = (403 - 403 ÷ 4 * topCount 5) ÷ 2 + Z.of_nat k * (403 ÷ 4)
      ∧ geo_y g = 0 ∧ geo_w g = 403 ÷ 4 ∧ geo_h g = 60
      ∧ 0 ≤ geo_x g ∧ geo_x g + geo_w g ≤ 403.
Proof.
  intros blank.
  assert (Huserpic : 0 ≤ 40) by lia.
  assert (Hcount : Z.of_nat (length [blank; blank; blank]) = topCount 5)
    by reflexivity.
  assert (Hbig : 40 < 403 ÷ 4) by reflexivity.
  destruct (top_reactors_fit_in_row 40 60 5 403 [blank; blank; blank]
              Huserpic Hcount) as (_ & _ & Hplaced).
  split; [exact Huserpic|]. split; [exact Hcount|]. split; [exact Hbig|].
  exact (proj2 (proj2 (proj2 (Hplaced Hbig)))).
Defined.

Lemma label_is_centred_witness :
  0 ≤ 10 < 1073741824
  ∧ 0 ≤ 13 < 2147483648
  ∧ 13 < 2 * 10
  ∧ 2 * 10 - 1 ≤ fst (label_layout 10 13) ≤ 2 * 10.
Proof.
  assert (Hfont : 0 ≤ 10 < 1073741824) by lia.
  assert (Hheight : 0 ≤ 13 < 2147483648) by lia.
  assert (Hlow : 13 < 2 * 10) by lia.
  split; [exact Hfont|]. split; [exact Hheight|]. split; [exact Hlow|].
  exact (proj2 (proj2 (proj2 (proj2
           (label_is_centred 10 13 Hfont Hheight)))) Hlow).
Defined.

End PaidReactionWitnesses.
